(** * Documentation coverage scanner ([scripts/doc_coverage.py])

    A shallow embedding of the scanner's core: the source enumerator
    ([collect_source_files]), the symbol extractor ([extract_symbols]), the
    documentation aggregator ([load_docs]) and the coverage evaluator
    ([is_documented], [compute_coverage]), together with the part of [main]
    that combines them.

    The program leans on three pieces of Python's library, which are
    embedded first, as far as the program uses them:
    - [re]: the pattern syntax, [re.escape], and the backtracking matcher
      behind [re.search] and [re.finditer];
    - the UTF-8 codec behind [Path.read_text];
    - [pathlib] suffixes and [os.walk].

    Python strings are sequences of Unicode code points: a character is a
    code point ([N]) and a string a list of them. *)

From Stdlib Require Import NArith ZArith List Ascii String Bool Lia.
From Stdlib.Strings Require Import Byte.
From stdpp Require Import base option list gmap sets strings numbers.

Set Default Proof Using "Type".

(** ** Characters and strings *)

Definition char := N.
Bind Scope N_scope with char.
Definition str := list char.

(** The code point of an ASCII character and the string of an ASCII literal. *)
Definition ch (a : ascii) : char := N_of_ascii a.
Definition py (s : string) : str := map N_of_ascii (list_ascii_of_string s).

Definition in_range (lo hi c : char) : bool := ((lo <=? c) && (c <=? hi))%N.

(** Python's character classes on [str] patterns are Unicode aware:
    [\w] is [str.isalnum] or an underscore, [\s] is [str.isspace]. Below
    code point 128 both are fixed here; above it they are read from the
    interpreter's Unicode database, which the development takes as given. *)
Class UnicodeDb := {
  uni_isalnum : char -> bool;
  uni_isspace : char -> bool
}.

(** A database with no alphanumeric and no blank outside ASCII; the closed
    examples, whose inputs are all ASCII, are evaluated with it. *)
Definition ascii_db : UnicodeDb :=
  {| uni_isalnum := fun _ => false; uni_isspace := fun _ => false |}.

Definition is_ascii_alpha (c : char) : bool :=
  in_range 65 90 c || in_range 97 122 c.

Definition is_ascii_digit (c : char) : bool := in_range 48 57 c.

Definition is_ascii_alnum (c : char) : bool :=
  is_ascii_alpha c || is_ascii_digit c.

(** Tab, line feed, vertical tab, form feed, carriage return, the four
    separators 0x1c-0x1f and the space. *)
Definition is_ascii_space (c : char) : bool :=
  in_range 9 13 c || in_range 28 31 c || (c =? 32)%N.

Section Categories.
Context `{UnicodeDb}.

Definition is_word (c : char) : bool :=
  if (c <? 128)%N then is_ascii_alnum c || (c =? 95)%N else uni_isalnum c.

Definition is_space (c : char) : bool :=
  if (c <? 128)%N then is_ascii_space c else uni_isspace c.

End Categories.

(** ** Regular expressions: syntax *)

Module Re.

Inductive category := CatSpace | CatWord.

(** The members of a bracketed set. *)
Inductive set_item :=
| IChar (c : char)
| IRange (lo hi : char)
| ICat (k : category).

Inductive regex :=
| Eps
| Chr (c : char)
| CharSet (negated : bool) (items : list set_item)
| Cat (k : category)
| Boundary
| Bol
| Seq (r1 r2 : regex)
| Alt (r1 r2 : regex)
| Star (r : regex)
| Plus (r : regex)
| Opt (r : regex)
| Group (n : nat) (r : regex).

(** A run of literal characters. *)
Fixpoint lits (s : str) (rest : regex) : regex :=
  match s with
  | [] => rest
  | c :: s' => Seq (Chr c) (lits s' rest)
  end.

(** *** [re.escape]

    [_special_chars_map = {i: '\\' + chr(i) for i in
    b'()[]{}?*+-|^$\\.&~# \t\n\r\v\f'}]: each of these characters gets a
    backslash before it, every other character is kept. *)
Definition special_chars : list char :=
  py "()[]{}?*+-|^$\.&~# " ++ [9; 10; 13; 11; 12]%N.

Definition is_special (c : char) : bool := bool_decide (c ∈ special_chars).

Definition escape (pattern : str) : str :=
  flat_map (fun c => if is_special c then [ch "\"; c] else [c]) pattern.

(** *** The pattern parser

    The fragment of the pattern language the program's patterns are written
    in: literals, backslash escapes of punctuation, [\b], [\s], [\w], [^],
    bracketed sets with ranges and negation, capturing and [(?:...)] groups,
    alternation and the greedy quantifiers [*], [+], [?]. Anything else is
    refused ([None]). *)

Definition parsed (A : Type) : Type := option (A * str).

Definition parse_escape (s : str) : parsed regex :=
  match s with
  | [] => None
  | c :: s' =>
      if (c =? ch "b")%N then Some (Boundary, s')
      else if (c =? ch "s")%N then Some (Cat CatSpace, s')
      else if (c =? ch "w")%N then Some (Cat CatWord, s')
      else if is_ascii_alnum c then None
      else Some (Chr c, s')
  end.

(** One member of a set, read at [c :: s]; [c] is not the closing bracket.
    A single character is also returned as the possible lower end of a
    range. *)
Definition parse_set_atom (c : char) (s : str) : parsed (option char * set_item) :=
  if (c =? ch "\")%N then
    match s with
    | [] => None
    | e :: s' =>
        if (e =? ch "s")%N then Some (None, ICat CatSpace, s')
        else if (e =? ch "w")%N then Some (None, ICat CatWord, s')
        else if is_ascii_alnum e then None
        else Some (Some e, IChar e, s')
    end
  else if (c =? ch "[")%N then None
  else Some (Some c, IChar c, s).

Fixpoint parse_set_items (fuel : nat) (s : str) : parsed (list set_item) :=
  match fuel with
  | 0 => None
  | S fuel' =>
      match s with
      | [] => None
      | c :: s1 =>
          if (c =? ch "]")%N then Some ([], s1)
          else
            match parse_set_atom c s1 with
            | None => None
            | Some (lo, item, s2) =>
                match lo, s2 with
                | Some l, d :: h :: s3 =>
                    if (d =? ch "-")%N && negb (h =? ch "]")%N then
                      if (h =? ch "\")%N || (h <? l)%N then None
                      else
                        match parse_set_items fuel' s3 with
                        | Some (items, s4) => Some (IRange l h :: items, s4)
                        | None => None
                        end
                    else
                      match parse_set_items fuel' s2 with
                      | Some (items, s4) => Some (item :: items, s4)
                      | None => None
                      end
                | None, d :: h :: _ =>
                    if (d =? ch "-")%N && negb (h =? ch "]")%N then None
                    else
                      match parse_set_items fuel' s2 with
                      | Some (items, s4) => Some (item :: items, s4)
                      | None => None
                      end
                | _, _ =>
                    match parse_set_items fuel' s2 with
                    | Some (items, s4) => Some (item :: items, s4)
                    | None => None
                    end
                end
            end
      end
  end.

Definition parse_set (s : str) : parsed regex :=
  match s with
  | c :: s' =>
      if (c =? ch "^")%N then
        match s' with
        | c' :: _ =>
            if (c' =? ch "]")%N then None
            else
              match parse_set_items (S (length s')) s' with
              | Some (items, rest) => Some (CharSet true items, rest)
              | None => None
              end
        | [] => None
        end
      else if (c =? ch "]")%N then None
      else
        match parse_set_items (S (length s)) s with
        | Some (items, rest) => Some (CharSet false items, rest)
        | None => None
        end
  | [] => None
  end.

(** A quantifier after the atom [a]; a second quantifier character (lazy or
    possessive forms) and counted repeats are outside the fragment. *)
Definition is_quantifier (c : char) : bool :=
  (c =? ch "*")%N || (c =? ch "+")%N || (c =? ch "?")%N || (c =? ch "{")%N.

Definition parse_quantifier (a : regex) (s : str) : parsed regex :=
  match s with
  | q :: s' =>
      if negb (is_quantifier q) then Some (a, s)
      else if match s' with q' :: _ => is_quantifier q' | [] => false end then None
      else if (q =? ch "*")%N then Some (Star a, s')
      else if (q =? ch "+")%N then Some (Plus a, s')
      else if (q =? ch "?")%N then Some (Opt a, s')
      else None
  | [] => Some (a, s)
  end.

(** [n] is the number of capturing groups opened so far: groups are numbered
    by their opening parenthesis. *)
Fixpoint parse_alt (fuel : nat) (s : str) (n : nat) : option (regex * str * nat) :=
  match fuel with
  | 0 => None
  | S fuel' =>
      match parse_seq fuel' s n with
      | None => None
      | Some (r1, s1, n1) =>
          match s1 with
          | c :: s2 =>
              if (c =? ch "|")%N then
                match parse_alt fuel' s2 n1 with
                | Some (r2, s3, n2) => Some (Alt r1 r2, s3, n2)
                | None => None
                end
              else Some (r1, s1, n1)
          | [] => Some (r1, s1, n1)
          end
      end
  end
with parse_seq (fuel : nat) (s : str) (n : nat) : option (regex * str * nat) :=
  match fuel with
  | 0 => None
  | S fuel' =>
      match s with
      | [] => Some (Eps, s, n)
      | c :: _ =>
          if (c =? ch "|")%N || (c =? ch ")")%N then Some (Eps, s, n)
          else
            match parse_atom fuel' s n with
            | None => None
            | Some (a, s1, n1) =>
                match parse_quantifier a s1 with
                | None => None
                | Some (q, s2) =>
                    match parse_seq fuel' s2 n1 with
                    | Some (r, s3, n3) => Some (Seq q r, s3, n3)
                    | None => None
                    end
                end
            end
      end
  end
with parse_atom (fuel : nat) (s : str) (n : nat) : option (regex * str * nat) :=
  match fuel with
  | 0 => None
  | S fuel' =>
      match s with
      | [] => None
      | c :: s1 =>
          if (c =? ch "(")%N then
            match s1 with
            | q :: s2 =>
                if (q =? ch "?")%N then
                  match s2 with
                  | k :: s3 =>
                      if (k =? ch ":")%N then
                        match parse_alt fuel' s3 n with
                        | Some (r, d :: s4, n1) =>
                            if (d =? ch ")")%N then Some (r, s4, n1) else None
                        | _ => None
                        end
                      else None
                  | [] => None
                  end
                else
                  match parse_alt fuel' s1 (S n) with
                  | Some (r, d :: s4, n1) =>
                      if (d =? ch ")")%N then Some (Group (S n) r, s4, n1) else None
                  | _ => None
                  end
            | [] => None
            end
          else if (c =? ch "[")%N then
            match parse_set s1 with
            | Some (r, s2) => Some (r, s2, n)
            | None => None
            end
          else if (c =? ch "\")%N then
            match parse_escape s1 with
            | Some (r, s2) => Some (r, s2, n)
            | None => None
            end
          else if (c =? ch "^")%N then Some (Bol, s1, n)
          else if is_quantifier c || (c =? ch ".")%N || (c =? ch "$")%N
                  || (c =? ch ")")%N || (c =? ch "|")%N then None
          else Some (Chr c, s1, n)
      end
  end.

(** [re.compile]: the whole pattern must be consumed. *)
Definition compile (pattern : str) : option regex :=
  match parse_alt (3 * length pattern + 3) pattern 0 with
  | Some (r, [], _) => Some r
  | _ => None
  end.

(** ** Regular expressions: matching

    The matcher is the backtracking one: alternatives are tried from left
    to right, quantifiers are greedy and give back one repetition at a time,
    and the first way through the whole pattern wins. It is written in
    continuation-passing style, the continuation being the rest of the
    pattern. *)

(** A position in the subject: the characters before it, nearest first, and
    the characters from it on. *)
Record cursor := Cursor { before : str; after : str }.

Definition pos (c : cursor) : nat := length (before c).

(** The text consumed between two positions of one subject. *)
Definition consumed (c c' : cursor) : str :=
  take (length (after c) - length (after c')) (after c).

Definition groups := gmap nat str.

Record flags := Flags { multiline : bool }.

Definition no_flags : flags := Flags false.
Definition MULTILINE : flags := Flags true.

Definition result := option (cursor * groups).
Definition cont := cursor -> groups -> result.

Section Matcher.
Context `{UnicodeDb}.

Definition in_category (k : category) (c : char) : bool :=
  match k with
  | CatSpace => is_space c
  | CatWord => is_word c
  end.

Definition in_item (i : set_item) (c : char) : bool :=
  match i with
  | IChar x => (c =? x)%N
  | IRange lo hi => in_range lo hi c
  | ICat k => in_category k c
  end.

Definition in_set (negated : bool) (items : list set_item) (c : char) : bool :=
  xorb negated (existsb (fun i => in_item i c) items).

(** Consume one character that satisfies [p]. *)
Definition eat (p : char -> bool) (k : cont) : cont := fun c g =>
  match after c with
  | x :: rest => if p x then k (Cursor (x :: before c) rest) g else None
  | [] => None
  end.

(** [\b]: exactly one of the characters around the position is a word
    character; beyond either end of the subject there is none. *)
Definition word_before (c : cursor) : bool :=
  match before c with x :: _ => is_word x | [] => false end.

Definition word_after (c : cursor) : bool :=
  match after c with x :: _ => is_word x | [] => false end.

Definition at_boundary (c : cursor) : bool :=
  xorb (word_before c) (word_after c).

(** [^]: the start of the subject and, under [MULTILINE], the position after
    each line feed. *)
Definition at_bol (fl : flags) (c : cursor) : bool :=
  match before c with
  | [] => true
  | x :: _ => multiline fl && (x =? 10)%N
  end.

(** Greedy repetition of [step]: as many rounds as possible first, each of
    which has to consume something, then the continuation. *)
Fixpoint repeat (step : cont -> cont) (fuel : nat) (k : cont) : cont := fun c g =>
  match fuel with
  | 0 => k c g
  | S fuel' =>
      match step (fun c' g' =>
                    if length (after c') <? length (after c)
                    then repeat step fuel' k c' g' else None) c g with
      | Some r => Some r
      | None => k c g
      end
  end.

Fixpoint run (fl : flags) (r : regex) (k : cont) : cont := fun c g =>
  match r with
  | Eps => k c g
  | Chr x => eat (fun y => (y =? x)%N) k c g
  | CharSet negated items => eat (in_set negated items) k c g
  | Cat cat => eat (in_category cat) k c g
  | Boundary => if at_boundary c then k c g else None
  | Bol => if at_bol fl c then k c g else None
  | Seq r1 r2 => run fl r1 (run fl r2 k) c g
  | Alt r1 r2 =>
      match run fl r1 k c g with
      | Some res => Some res
      | None => run fl r2 k c g
      end
  | Star r1 => repeat (run fl r1) (length (after c)) k c g
  | Plus r1 => run fl r1 (fun c' g' => repeat (run fl r1) (length (after c')) k c' g') c g
  | Opt r1 =>
      match run fl r1 k c g with
      | Some res => Some res
      | None => k c g
      end
  | Group n r1 => run fl r1 (fun c' g' => k c' (<[n := consumed c c']> g')) c g
  end.

(** A match: where it starts, where it ends and what its groups hold. *)
Record mtch := Match { m_start : cursor; m_end : cursor; m_groups : groups }.

Definition group (n : nat) (m : mtch) : option str := m_groups m !! n.

Definition span (m : mtch) : nat * nat := (pos (m_start m), pos (m_end m)).

(** One attempt at the position [c]. With [must_advance] an empty match is
    refused (the scanner sets it after an empty match, so that the next one
    differs). *)
Definition match_at (fl : flags) (r : regex) (must_advance : bool) (c : cursor)
    : option mtch :=
  match run fl r (fun c' g' =>
                    if must_advance && (length (after c') =? length (after c))
                    then None else Some (c', g')) c ∅ with
  | Some (c', g') => Some (Match c c' g')
  | None => None
  end.

(** The leftmost match at or after a position. *)
Fixpoint search_from (fl : flags) (r : regex) (must_advance : bool)
    (bef aft : str) : option mtch :=
  match match_at fl r must_advance (Cursor bef aft) with
  | Some m => Some m
  | None =>
      match aft with
      | [] => None
      | x :: aft' => search_from fl r false (x :: bef) aft'
      end
  end.

(** [re.search]. *)
Definition search (fl : flags) (r : regex) (text : str) : option mtch :=
  search_from fl r false [] text.

(** The scanner behind [re.finditer]: search, then search again from the
    end of the match. *)
Fixpoint scan (fuel : nat) (fl : flags) (r : regex) (must_advance : bool)
    (c : cursor) : list mtch :=
  match fuel with
  | 0 => []
  | S fuel' =>
      match search_from fl r must_advance (before c) (after c) with
      | None => []
      | Some m =>
          m :: scan fuel' fl r (pos (m_end m) =? pos (m_start m)) (m_end m)
      end
  end.

(** [re.finditer]. Every round but the one after an empty match moves on by
    a character at least, so [2 * length text + 1] rounds are enough. *)
Definition finditer (fl : flags) (r : regex) (text : str) : list mtch :=
  scan (2 * length text + 1) fl r false (Cursor [] text).

(** The module-level [re.search(pattern, string)] and
    [re.finditer(pattern, string, flags)]: compile, then match. A pattern
    outside the parser's fragment finds nothing here; the patterns of the
    program are all inside it. *)
Definition re_search (pattern text : str) : option mtch :=
  match compile pattern with
  | Some r => search no_flags r text
  | None => None
  end.

Definition re_finditer (pattern text : str) (fl : flags) : list mtch :=
  match compile pattern with
  | Some r => finditer fl r text
  | None => []
  end.

End Matcher.

End Re.

(** ** The UTF-8 codec *)

(** The exceptions of the model: a decoding fault and an input/output fault. *)
Inductive exn := UnicodeDecodeError | OSError.

(** What a call gives back: a value, or an exception on its way up. *)
Inductive outcome (A : Type) :=
| Ok (a : A)
| Raise (e : exn).
Arguments Ok {A} a.
Arguments Raise {A} e.

Definition bind {A B : Type} (x : outcome A) (f : A -> outcome B) : outcome B :=
  match x with
  | Ok a => f a
  | Raise e => Raise e
  end.

Notation "x <- e1 ;; e2" := (bind e1 (fun x => e2))
  (at level 100, e1 at next level, right associativity).

Module Utf8.

(** The [errors] argument of [bytes.decode] and [Path.read_text]. *)
Inductive errors := Strict | Ignore.

Definition is_continuation (b : N) : bool := in_range 128 191 b.

Definition payload (b : N) : N := (b - 128)%N.

(** The well-formed sequence at the head of [bs], if there is one: its
    code point and the bytes after it. Overlong forms, surrogates and code
    points above 0x10FFFF are ill-formed. *)
Definition decode_one (bs : list N) : option (char * list N) :=
  match bs with
  | [] => None
  | b0 :: r0 =>
      if (b0 <? 128)%N then Some (b0, r0)
      else if in_range 194 223 b0 then
        match r0 with
        | b1 :: r1 =>
            if is_continuation b1
            then Some (((b0 - 192) * 64 + payload b1)%N, r1) else None
        | _ => None
        end
      else if in_range 224 239 b0 then
        match r0 with
        | b1 :: b2 :: r2 =>
            if is_continuation b1 && is_continuation b2
               && negb ((b0 =? 224)%N && (b1 <? 160)%N)
               && negb ((b0 =? 237)%N && (159 <? b1)%N)
            then Some ((((b0 - 224) * 64 + payload b1) * 64 + payload b2)%N, r2)
            else None
        | _ => None
        end
      else if in_range 240 244 b0 then
        match r0 with
        | b1 :: b2 :: b3 :: r3 =>
            if is_continuation b1 && is_continuation b2 && is_continuation b3
               && negb ((b0 =? 240)%N && (b1 <? 144)%N)
               && negb ((b0 =? 244)%N && (143 <? b1)%N)
            then Some (((((b0 - 240) * 64 + payload b1) * 64 + payload b2) * 64
                         + payload b3)%N, r3)
            else None
        | _ => None
        end
      else None
  end.

(** Decoding proper. Where the head is ill-formed, [Strict] raises and
    [Ignore] drops the offending byte and goes on. (The codec drops an
    ill-formed prefix of up to three bytes at once; the bytes after the
    first are continuation bytes, which start no sequence, so dropping them
    one by one gives the same text.) Every round consumes a byte. *)
Fixpoint decode_loop (fuel : nat) (e : errors) (bs : list N) : outcome str :=
  match fuel with
  | 0 => Ok []
  | S fuel' =>
      match bs with
      | [] => Ok []
      | _ :: tl =>
          match decode_one bs with
          | Some (c, rest) =>
              s <- decode_loop fuel' e rest ;; Ok (c :: s)
          | None =>
              match e with
              | Strict => Raise UnicodeDecodeError
              | Ignore => decode_loop fuel' e tl
              end
          end
      end
  end.

Definition decode (e : errors) (data : list byte) : outcome str :=
  let bs := map Byte.to_N data in
  decode_loop (length bs) e bs.

End Utf8.

(** ** Paths and the file system *)

(** A path is the list of its components, outermost first; the paths of
    the program are kept relative to the code root (what [main] recovers
    with [relative_to]). *)
Definition path := list str.

(** [Path(root) / entry]. *)
Definition joinpath (root : path) (entry : str) : path := root ++ [entry].

(** [str(path)]: the components, separated by slashes. *)
Fixpoint path_str (p : path) : str :=
  match p with
  | [] => py "."
  | [x] => x
  | x :: rest => x ++ py "/" ++ path_str rest
  end.

(** [Path.name]: the last component. *)
Definition path_name (p : path) : str := default [] (list.last p).

(** [str.rfind('.')]: the index of the last dot, if there is one. *)
Fixpoint rfind_dot (s : str) : option nat :=
  match s with
  | [] => None
  | c :: s' =>
      match rfind_dot s' with
      | Some i => Some (S i)
      | None => if (c =? ch ".")%N then Some 0 else None
      end
  end.

(** [Path.suffix]:
    [i = name.rfind('.'); name[i:] if 0 < i < len(name) - 1 else '']. *)
Definition path_suffix (p : path) : str :=
  let name := path_name p in
  match rfind_dot name with
  | Some i => if (0 <? i) && (i <? length name - 1) then drop i name else []
  | None => []
  end.

(** What a directory lists under a name that is no directory: a file with
    its bytes, or an entry that cannot be opened (a dangling symbolic link,
    a file without read permission): [os.walk] lists both among [files]. *)
Inductive contents :=
| Bytes (data : list byte)
| NoAccess.

(** A directory: its name, its subdirectories and what it lists besides.
    The name of the code root itself plays no part. *)
#[warnings="-register-all"]
Inductive tree :=
| Dir (name : str) (subdirs : list tree) (files : list (str * contents)).

Definition dirname (t : tree) : str :=
  match t with Dir n _ _ => n end.

(** [os.walk(top)], top down: the triple of a directory comes first, then
    the walks of its subdirectories. The caller may edit the [dirs] list of
    a triple in place before the walk descends, and the walk descends into
    what is left of it; an edit that only drops names is given here as the
    test [keep] of the names that stay, and the triple shows [dirs] as the
    edit leaves it. *)
Fixpoint walk (keep : str -> bool) (root : path) (t : tree)
    : list (path * list str * list str) :=
  match t with
  | Dir _ ds fs =>
      (root, filter (fun d => keep d = true) (map dirname ds), map fst fs)
      :: (fix walk_subdirs (l : list tree) :=
            match l with
            | [] => []
            | sub :: l' =>
                (if keep (dirname sub)
                 then walk keep (joinpath root (dirname sub)) sub else [])
                ++ walk_subdirs l'
            end) ds
  end.

(** The bytes of the file at a path, if the path leads to a file that
    opens. *)
Fixpoint read_bytes (t : tree) (p : path) {struct t} : option (list byte) :=
  match t, p with
  | Dir _ _ _, [] => None
  | Dir _ _ fs, [name] =>
      match list_find (fun f => f.1 = name) fs with
      | Some (_, (_, Bytes data)) => Some data
      | Some (_, (_, NoAccess)) => None
      | None => None
      end
  | Dir _ ds _, d :: p' =>
      (fix descend (l : list tree) :=
         match l with
         | [] => None
         | sub :: l' =>
             if bool_decide (dirname sub = d) then read_bytes sub p'
             else descend l'
         end) ds
  end.

(** Files are opened in text mode with the default [newline=None]: a
    carriage return, with the line feed after it if there is one, is read
    as a line feed. [after_cr] tells that the character before was a
    carriage return. *)
Fixpoint translate_newlines (after_cr : bool) (s : str) : str :=
  match s with
  | [] => []
  | c :: s' =>
      if (c =? 13)%N then 10%N :: translate_newlines true s'
      else if (c =? 10)%N && after_cr then translate_newlines false s'
      else c :: translate_newlines false s'
  end.

Definition universal_newlines (s : str) : str := translate_newlines false s.

(** What text mode makes of the bytes of a file:
    [open(encoding="utf-8", errors=e).read()]. *)
Definition read_data (e : Utf8.errors) (data : list byte) : outcome str :=
  decoded <- Utf8.decode e data ;; Ok (universal_newlines decoded).

(** [Path.read_text(encoding="utf-8", errors=e)]; a path that leads to no
    file, or to an entry that cannot be opened, is an input/output fault
    ([OSError]), which nothing in the program catches. *)
Definition read_text (t : tree) (p : path) (e : Utf8.errors) : outcome str :=
  match read_bytes t p with
  | Some data => read_data e data
  | None => Raise OSError
  end.

(** ** The scanner *)

Section Scanner.
Context `{UnicodeDb}.

(** [collect_source_files]: the files under the code root whose suffix is
    one of [extensions], the directories of [ignore_dirs] pruned before the
    walk descends into them. *)
Definition extensions : list str := [py ".js"; py ".jsx"; py ".ts"; py ".tsx"].

Definition ignore_dirs : list str :=
  [py ".git"; py "dist"; py "node_modules"; py "build"].

Definition collect_source_files (code_root : tree) : list path :=
  flat_map
    (fun '(root, dirs, files) =>
       filter (fun p => path_suffix p ∈ extensions)
              (map (joinpath root) files))
    (walk (fun d => bool_decide (d ∉ ignore_dirs)) [] code_root).

(** [set.add(match.group(1))]. In each pattern of the program group 1 lies
    on every way through the pattern, so a match always holds it (lemma
    [finditer_group1] below) and the second case never arises. *)
Definition add_group1 (acc : gset str) (m : Re.mtch) : gset str :=
  match Re.group 1 m with
  | Some name => {[ name ]} ∪ acc
  | None => acc
  end.

Definition global_pattern : str := py "^(?:const|let|var)\s+([A-Za-z_]\w*)".

Definition patterns : list str := [
  py "\bfunction\s+([A-Za-z_]\w*)\s*\(";
  py "\b([A-Za-z_]\w*)\s*=\s*function\b";
  py "\b([A-Za-z_]\w*)\s*=\s*async\s*\(";
  py "\b([A-Za-z_]\w*)\s*=\s*\([^)]*\)\s*=>";
  py "\b([A-Za-z_]\w*)\s*:\s*(?:async\s*)?\([^)]*\)\s*=>"
].

Definition extract_symbols (text : str) : gset str * gset str :=
  let globals_set :=
    foldl add_group1 ∅ (Re.re_finditer global_pattern text Re.MULTILINE) in
  let functions_set :=
    foldl (fun acc pattern =>
             foldl add_group1 acc (Re.re_finditer pattern text Re.no_flags))
          ∅ patterns in
  (globals_set, functions_set).

(** [load_docs]: the root is [None] when it does not exist, and otherwise
    holds the bytes of the files that [rglob("*.md")] finds under it, in the
    order it finds them. They are read with [read_text(encoding="utf-8")],
    that is, strictly. The files are given by their bytes, so all of them
    open: a path that [rglob] yields and that cannot be read (a directory
    named like a markdown file, a file without read permission) has no
    counterpart here; the program would end in an input/output fault at
    it. *)
Fixpoint read_all (docs : list (list byte)) : outcome (list str) :=
  match docs with
  | [] => Ok []
  | data :: rest =>
      text <- read_data Utf8.Strict data ;;
      collected <- read_all rest ;;
      Ok (text :: collected)
  end.

(** ["\n".join(collected)]. *)
Fixpoint join_lines (collected : list str) : str :=
  match collected with
  | [] => []
  | [s] => s
  | s :: rest => s ++ [10%N] ++ join_lines rest
  end.

Definition load_docs (doc_root : option (list (list byte))) : outcome str :=
  match doc_root with
  | None => Ok []
  | Some docs => collected <- read_all docs ;; Ok (join_lines collected)
  end.

Definition is_documented (name doc_text : str) : bool :=
  if bool_decide (doc_text = []) then false
  else bool_decide (is_Some (Re.re_search (py "\b" ++ Re.escape name ++ py "\b") doc_text)).

Definition compute_coverage (names : list str) (doc_text : str) : nat * nat :=
  let names_set : gset str := list_to_set names in
  if bool_decide (names_set = ∅) then (0, 0)
  else
    let documented :=
      sum_list (map (fun _ => 1)
                    (filter (fun name => is_documented name doc_text = true)
                            (elements names_set))) in
    (documented, size names_set).

(** [f"{rel}:{name}"]. *)
Definition qualified (rel : path) (name : str) : str :=
  path_str rel ++ py ":" ++ name.

(** What [main] prints: the three tallies and the overall percentage. The
    percentage is kept as the exact rational [documented / total * 100].
    The program computes it in binary floating point and prints it rounded
    to one decimal; that keeps the order of two percentages, the bounds 0
    and 100, and the value 100 where all is documented (the quotient is
    then exactly 1), but not more: what is printed may read [100.0] where
    the exact value is below 100. *)
Record report := Report {
  modules_tally : nat * nat;
  globals_tally : nat * nat;
  functions_tally : nat * nat;
  coverage_pct : Qcanon.Qc
}.

(** The names collected over the files: modules, globals, functions. *)
Definition collected_names : Type := list str * list str * list str.

(** The loop of [main] over the source files. *)
Fixpoint scan_files (code_root : tree) (paths : list path)
    (acc : collected_names) : outcome collected_names :=
  match paths with
  | [] => Ok acc
  | rel :: rest =>
      let '(modules, globals_names, functions_names) := acc in
      text <- read_text code_root rel Utf8.Ignore ;;
      let '(globals_set, functions_set) := extract_symbols text in
      scan_files code_root rest
        (modules ++ [path_str rel],
         globals_names ++ map (qualified rel) (elements globals_set),
         functions_names ++ map (qualified rel) (elements functions_set))
  end.

Definition percentage (documented total : nat) : Qcanon.Qc :=
  if bool_decide (total = 0) then Qc_of_Z 100
  else Qcanon.Qcmult (Qcanon.Qcdiv (Qc_of_Z (Z.of_nat documented)) (Qc_of_Z (Z.of_nat total)))
              (Qc_of_Z 100).

Definition main (code_root : tree) (doc_root : option (list (list byte)))
    : outcome report :=
  doc_text <- load_docs doc_root ;;
  collected <- scan_files code_root (collect_source_files code_root) ([], [], []) ;;
  let '(modules, globals_names, functions_names) := collected in
  let '(module_docged, module_total) := compute_coverage modules doc_text in
  let '(globals_docged, globals_total) := compute_coverage globals_names doc_text in
  let '(functions_docged, functions_total) := compute_coverage functions_names doc_text in
  let overall_total := module_total + globals_total + functions_total in
  let overall_docged := module_docged + globals_docged + functions_docged in
  let coverage_pct := percentage overall_docged overall_total in
  Ok (Report (module_docged, module_total) (globals_docged, globals_total)
             (functions_docged, functions_total) coverage_pct).

End Scanner.

(** ** The vocabulary of the specification

    The notions the claims are stated in, written after the specification's
    words and not after the code. *)

Section Vocabulary.
Context `{UnicodeDb}.

(** A word boundary lies between [l] and [r] when exactly one of the two
    characters around the cut is a word character. *)
Definition ends_with_word (l : str) : bool :=
  match list.last l with Some x => is_word x | None => false end.

Definition starts_with_word (r : str) : bool :=
  match r with x :: _ => is_word x | [] => false end.

Definition word_boundary (l r : str) : Prop :=
  ends_with_word l <> starts_with_word r.

(** [name] occurs in [corpus], character for character, between two word
    boundaries. *)
Definition whole_word_in (name corpus : str) : Prop :=
  exists l r, corpus = l ++ name ++ r
    /\ word_boundary l (name ++ r) /\ word_boundary (l ++ name) r.



(** An identifier: a letter or an underscore, then word characters. *)
Definition identifier_start (c : char) : bool :=
  is_ascii_alpha c || (c =? ch "_")%N.

Definition identifier (name : str) : Prop :=
  exists c s, name = c :: s /\ identifier_start c = true
    /\ Forall (fun x => is_word x = true) s.


End Vocabulary.

(** Letter case: [s] with its ASCII capitals made small. *)
Definition ascii_lower (c : char) : char :=
  if in_range 65 90 c then (c + 32)%N else c.

Definition lower (s : str) : str := map ascii_lower s.

(** ** Offending bytes

    Reading the bytes of a file from the left, sequence by sequence, a byte
    is offending when no well-formed sequence starts at it.
    [without_offending data kept]: [kept] is [data] with every well-formed
    sequence kept whole and in place, and every offending byte left out. *)
Inductive without_offending : list byte -> list byte -> Prop :=
| wo_end : without_offending [] []
| wo_keep pre rest kept c :
    Utf8.decode_one (map Byte.to_N (pre ++ rest))
    = Some (c, map Byte.to_N rest) ->
    without_offending rest kept ->
    without_offending (pre ++ rest) (pre ++ kept)
| wo_drop b rest kept :
    Utf8.decode_one (map Byte.to_N (b :: rest)) = None ->
    without_offending rest kept ->
    without_offending (b :: rest) kept.

(** ** File systems of the examples *)

(** A code root with one source file whose bytes are not well-formed, and
    two files whose suffixes differ from [.js] and [.ts] by case only. *)
Definition example_root : tree :=
  Dir []
    [Dir (py "src") []
       [(py "app.js", Bytes [x61; xff; x62]%byte); (py "APP.JS", Bytes []);
        (py "main.Ts", Bytes [])]]
    [(py "README.md", Bytes [])].

(** A code root with no source file. *)
Definition example_root_no_sources : tree :=
  Dir [] [Dir (py "docs") [] [(py "api.md", Bytes [x61]%byte)]]
    [(py "README.md", Bytes []); (py "APP.JS", Bytes [])].

(** A code root with one source file that declares a global and a
    function, and the markdown files of a documentation root that mention
    the file and the two bare names. *)
Definition example_root_symbols : tree :=
  Dir [] []
    [(py "lib.js", Bytes (list_byte_of_string "const a = 1
function f() {}"))].

(** The same code root with a source file more that cannot be opened. *)
Definition example_root_no_access : tree :=
  Dir [] []
    [(py "lib.js", Bytes (list_byte_of_string "const a = 1
function f() {}"));
     (py "link.js", NoAccess)].

Definition example_docs : list (list byte) :=
  [list_byte_of_string "lib.js holds a"; list_byte_of_string "and f"].

(** ** The file system, by paths *)






(** ** Notions used in the proofs *)

Module ReAux.
Import Re.

(** The position [i] of [text]. *)
Definition cursor_at (text : str) (i : nat) : cursor :=
  Cursor (reverse (take i text)) (drop i text).

(** [c'] lies at or after [c] in the same subject. *)
Definition reach (c c' : cursor) : Prop :=
  exists w, after c = w ++ after c' /\ before c' = reverse w ++ before c.

(** A step of the matcher calls its continuation, if at all, at a position
    at or after its own. *)
Definition passes (step : cont -> cont) : Prop :=
  forall k c g res, step k c g = Some res ->
    exists c' g', reach c c' /\ k c' g' = Some res.

(** Every way through [r] passes a group numbered [n]. *)
Fixpoint sets_group (n : nat) (r : regex) : bool :=
  match r with
  | Seq r1 r2 => sets_group n r1 || sets_group n r2
  | Alt r1 r2 => sets_group n r1 && sets_group n r2
  | Plus r1 => sets_group n r1
  | Group m r1 => (m =? n) || sets_group n r1
  | _ => false
  end.

(** A continuation that leaves group [n] set when it finds it set. *)
Definition keeps (n : nat) (k : cont) : Prop :=
  forall c g res, k c g = Some res ->
    is_Some (g !! n) -> is_Some (res.2 !! n).

(** The pattern that [is_documented] compiles for [name]. *)
Definition name_regex (name : str) : regex :=
  Seq Boundary (lits name (Seq Boundary Eps)).

(** The longest prefix of [l] whose characters satisfy [p], and the rest. *)
Fixpoint span_while (p : char -> bool) (l : str) : str * str :=
  match l with
  | x :: l' => if p x then (x :: (span_while p l').1, (span_while p l').2) else ([], l)
  | [] => ([], [])
  end.

Definition head_is (p : char -> bool) (l : str) : bool :=
  match l with x :: _ => p x | [] => false end.



Definition ident_regex : regex :=
  Seq (CharSet false [IRange 65 90; IRange 97 122; IChar 95])
      (Seq (Star (Cat CatWord)) Eps).



Section Declarations.
Context `{UnicodeDb}.


(** The spans and first groups of [re.finditer(pattern, text, flags)]. *)
Definition found (pattern text : str) (fl : flags)
    : list (nat * nat * option str) :=
  map (fun m => (Re.span m, group 1 m)) (re_finditer pattern text fl).

End Declarations.

End ReAux.

Module ReMore.
Import Re ReAux.

(** Every group numbered 1 in [r] wraps the identifier pattern. *)
Fixpoint group1_is_ident (r : regex) : Prop :=
  match r with
  | Seq r1 r2 | Alt r1 r2 => group1_is_ident r1 /\ group1_is_ident r2
  | Star r1 | Plus r1 | Opt r1 => group1_is_ident r1
  | Group n r1 => if decide (n = 1) then r1 = ident_regex else group1_is_ident r1
  | _ => True
  end.

(** No group in [r]. *)
Fixpoint group_free (r : regex) : bool :=
  match r with
  | Seq r1 r2 | Alt r1 r2 => group_free r1 && group_free r2
  | Star r1 | Plus r1 | Opt r1 => group_free r1
  | Group _ _ => false
  | _ => true
  end.

(** A step of the matcher that hands the groups on as they are. *)
Definition transparent (step : cont -> cont) : Prop :=
  forall k c g res, step k c g = Some res ->
    exists c', reach c c' /\ k c' g = Some res.

(** The identifier in group 1, optional whitespace, the character [x], and
    the rest of a pattern: what the function patterns have in common. *)
Definition named (x : char) (rest : regex) : regex :=
  Seq (Group 1 ident_regex) (Seq (Star (Cat CatSpace)) (Seq (Chr x) rest)).

(** The first of the function patterns. *)
Definition function_regex : regex :=
  Seq Boundary
      (lits (py "function") (Seq (Plus (Cat CatSpace)) (named (ch "(") Eps))).

(** What follows the name and the equals sign in the pattern of the arrow
    functions: [\s*\([^)]*\)\s*=>]. *)
Definition arrow_tail : regex :=
  Seq (Star (Cat CatSpace))
    (Seq (Chr (ch "("))
       (Seq (Star (CharSet true [IChar (ch ")")]))
          (Seq (Chr (ch ")"))
             (Seq (Star (Cat CatSpace))
                (Seq (Chr (ch "=")) (Seq (Chr (ch ">")) Eps)))))).

(** The fourth of the function patterns. *)
Definition arrow_regex : regex := Seq Boundary (named (ch "=") arrow_tail).

Section Invariants.
Context `{UnicodeDb}.

(** Group 1, where it is set, holds an identifier. *)
Definition holds_identifier (g : groups) : Prop :=
  forall v, g !! 1 = Some v -> identifier v.

(** A continuation that hands this on. *)
Definition keeps_identifier (k : cont) : Prop :=
  forall c g res, k c g = Some res ->
    holds_identifier g -> holds_identifier res.2.

(** [r] opens with a function declaration of [name]: the keyword,
    whitespace, the identifier, optional whitespace and the parenthesis
    that opens the parameters. *)
Definition declares_function (r name : str) : Prop :=
  exists ws ws' rest,
    ws <> [] /\ Forall (fun y => is_space y = true) ws
    /\ identifier name /\ Forall (fun y => is_space y = true) ws'
    /\ r = py "function" ++ ws ++ name ++ ws' ++ ch "(" :: rest.

(** [r] opens with an arrow function bound to [name], [width] characters
    long up to its arrow: the identifier, an equals sign, a parameter list
    in parentheses that holds no closing parenthesis, and the arrow, with
    optional whitespace between them. *)
Definition declares_arrow (r name : str) (width : nat) : Prop :=
  exists ws1 ws2 params ws3 rest,
    identifier name
    /\ Forall (fun y => is_space y = true) ws1
    /\ Forall (fun y => is_space y = true) ws2
    /\ (ch ")" ∉ params)
    /\ Forall (fun y => is_space y = true) ws3
    /\ r = name ++ ws1 ++ ch "=" :: ws2 ++ ch "(" :: params
             ++ ch ")" :: ws3 ++ ch "=" :: ch ">" :: rest
    /\ width = length (name ++ ws1 ++ ch "=" :: ws2 ++ ch "(" :: params
                         ++ ch ")" :: ws3 ++ [ch "="; ch ">"]).
End Invariants.

End ReMore.

(** * Properties *)

(** ** The library model on small inputs

    Each value below is the one the Python library gives. *)

Example escape_specials :
  Re.escape (py "a/b.js:c d") = py "a/b\.js:c\ d".
Proof. reflexivity. Qed.

Example path_suffix_cases :
  path_suffix [py "x"; py "a.js"] = py ".js"
  /\ path_suffix [py "x"; py "a.b.js"] = py ".js"
  /\ path_suffix [py "x"; py ".js"] = []
  /\ path_suffix [py "x"; py "a."] = []
  /\ path_suffix [py "x"; py "js"] = []
  /\ path_suffix [py "x"; py "APP.JS"] = py ".JS".
Proof. repeat split; reflexivity. Qed.

Example decode_ignore_cases :
  Utf8.decode Utf8.Ignore [x61; xff; x62]%byte = Ok (py "ab")
  /\ Utf8.decode Utf8.Ignore [xe2; x82; x41; xf0; x9f; x98]%byte = Ok (py "A")
  /\ Utf8.decode Utf8.Ignore
       [xed; xa0; x80; x7a; xc0; x80; xf4; x90; x80; x80]%byte = Ok (py "z")
  /\ Utf8.decode Utf8.Strict [xe2; x82; xac; xf0; x9f; x98; x80]%byte
     = Ok [8364; 128512]%N
  /\ Utf8.decode Utf8.Strict [x61; xff; x62]%byte = Raise UnicodeDecodeError.
Proof. repeat split; reflexivity. Qed.

Example universal_newlines_cases :
  universal_newlines [97; 13; 10; 98; 13; 99; 10; 13]%N
  = [97; 10; 98; 10; 99; 10; 10]%N.
Proof. reflexivity. Qed.

Example ascii_blanks :
  filter (fun c => is_ascii_space c = true) (map N.of_nat (seq 0 128))
  = [9; 10; 11; 12; 13; 28; 29; 30; 31; 32]%N.
Proof. reflexivity. Qed.


Section MatcherChecks.
Context `{UnicodeDb}.
Import ReAux.

Example finditer_globals_scenario :
  found global_pattern (py "const topLevel = 1
let another = 2
var legacy
function declared() {}
const arrow = () => {}") Re.MULTILINE
  = [(0, 14, Some (py "topLevel")); (19, 30, Some (py "another"));
     (35, 45, Some (py "legacy")); (69, 80, Some (py "arrow"))].
Proof. by vm_compute. Qed.

Example finditer_function_patterns :
  map (fun pattern => found pattern (py "function f (a) {}
x = function () {}
y = async (
z = (a, b) => 1
m: async (q) => 2
n : () => 3 k=(
)=>") Re.no_flags) patterns
  = [[(0, 12, Some (py "f"))];
     [(18, 30, Some (py "x"))];
     [(37, 48, Some (py "y"))];
     [(49, 62, Some (py "z")); (95, 102, Some (py "k"))];
     [(65, 80, Some (py "m")); (83, 92, Some (py "n"))]].
Proof. by vm_compute. Qed.

(** Empty matches: one at each position that has one, and none right after
    a match that ends there. *)
Example finditer_empty_matches :
  map fst (found (py "\b") (py "ab cd") Re.no_flags)
  = [(0, 0); (2, 2); (3, 3); (5, 5)]
  /\ map fst (found (py "x*") (py "axxb") Re.no_flags)
     = [(0, 0); (1, 3); (3, 3); (4, 4)].
Proof. split; by vm_compute. Qed.

End MatcherChecks.

(** ** Positions of a subject *)

Module ReFacts.
Import Re ReAux.

Lemma reach_refl c : reach c c.
Proof. exists []. by rewrite reverse_nil. Qed.

Lemma reach_trans c1 c2 c3 : reach c1 c2 -> reach c2 c3 -> reach c1 c3.
Proof.
  intros (w1 & Ha1 & Hb1) (w2 & Ha2 & Hb2). exists (w1 ++ w2).
  rewrite Ha1, Ha2, Hb2, Hb1, reverse_app. by rewrite !app_assoc.
Qed.

Lemma reach_step x b a : reach (Cursor b (x :: a)) (Cursor (x :: b) a).
Proof. exists [x]. by rewrite reverse_singleton. Qed.

Lemma reach_length c c' : reach c c' -> length (after c') <= length (after c).
Proof. intros (w & -> & _). rewrite length_app. lia. Qed.

Lemma cursor_at_0 text : cursor_at text 0 = Cursor [] text.
Proof. done. Qed.

Lemma cursor_at_S text i x :
  text !! i = Some x ->
  cursor_at text (S i) = Cursor (x :: before (cursor_at text i)) (drop (S i) text)
  /\ after (cursor_at text i) = x :: drop (S i) text.
Proof.
  intros Hx. unfold cursor_at; simpl. split.
  - by rewrite (take_S_r _ _ _ Hx), reverse_snoc.
  - by rewrite (drop_S _ _ _ Hx).
Qed.

Lemma pos_cursor_at text i : i <= length text -> pos (cursor_at text i) = i.
Proof.
  intros Hi. unfold pos, cursor_at; simpl.
  rewrite length_reverse, length_take. lia.
Qed.

Lemma after_cursor_at_length text i :
  length (after (cursor_at text i)) = length text - i.
Proof. unfold cursor_at; simpl. by rewrite length_drop. Qed.

Lemma reach_cursor_at text i c' :
  i <= length text -> reach (cursor_at text i) c' ->
  exists j, i <= j <= length text /\ c' = cursor_at text j
            /\ consumed (cursor_at text i) c' = take (j - i) (drop i text).
Proof.
  intros Hi (w & Ha & Hb). simpl in Ha, Hb.
  assert (Hlen : length text - i = length w + length (after c')).
  { rewrite <- length_drop, Ha, length_app. done. }
  assert (Htake : take (i + length w) text = take i text ++ w).
  { rewrite <- take_take_drop, Ha. by rewrite take_app_length. }
  assert (Hdrop : drop (i + length w) text = after c').
  { rewrite <- drop_drop, Ha. by rewrite drop_app_length. }
  exists (i + length w). split; [lia|]. split.
  - destruct c' as [b' a']; simpl in *. unfold cursor_at.
    by rewrite Htake, Hdrop, Hb, reverse_app.
  - unfold consumed. simpl. rewrite length_drop, Ha.
    replace (length text - i - length (after c')) with (length w) by lia.
    replace (i + length w - i) with (length w) by lia. done.
Qed.

(** ** Escaped names compile to literal runs *)

Lemma special_chars_eq :
  special_chars = [40; 41; 91; 93; 123; 125; 63; 42; 43; 45; 124; 94; 36;
                   92; 46; 38; 126; 35; 32; 9; 10; 13; 11; 12]%N.
Proof. reflexivity. Qed.

Lemma not_special_neq c k :
  is_special c = false -> k ∈ special_chars -> (c =? k)%N = false.
Proof.
  unfold is_special. intros Hc%bool_decide_eq_false Hk.
  apply N.eqb_neq. by intros ->.
Qed.

Ltac special_member := rewrite special_chars_eq; compute_done.

Lemma not_special_not_quantifier c :
  is_special c = false -> is_quantifier c = false.
Proof.
  intros Hc. unfold is_quantifier.
  rewrite !(not_special_neq c _ Hc) by special_member. done.
Qed.

(** What follows an escaped name never starts with a quantifier. *)
Lemma escape_head s tail :
  (exists h t, tail = h :: t /\ is_quantifier h = false) ->
  exists h t, escape s ++ tail = h :: t /\ is_quantifier h = false.
Proof.
  intros Htail. destruct s as [|c s]; [done|]. simpl.
  destruct (is_special c) eqn:Hc; simpl; eauto using not_special_not_quantifier.
Qed.

Lemma parse_quantifier_none a h t :
  is_quantifier h = false -> parse_quantifier a (h :: t) = Some (a, h :: t).
Proof. intros Hq. unfold parse_quantifier. by rewrite Hq. Qed.

Lemma parse_atom_escaped c tail fuel n :
  is_special c = true ->
  parse_atom (S fuel) (ch "\" :: c :: tail) n = Some (Chr c, tail, n).
Proof.
  unfold is_special. intros Hc%bool_decide_eq_true.
  rewrite special_chars_eq in Hc.
  repeat (apply elem_of_cons in Hc as [->|Hc]; [reflexivity|]).
  by apply elem_of_nil in Hc.
Qed.

Lemma parse_atom_plain c tail fuel n :
  is_special c = false ->
  parse_atom (S fuel) (c :: tail) n = Some (Chr c, tail, n).
Proof.
  intros Hc. simpl. unfold is_quantifier.
  rewrite !(not_special_neq c _ Hc) by special_member. done.
Qed.

Lemma parse_seq_atom fuel c s n a s1 n1 h t r s3 n3 :
  (c =? ch "|")%N || (c =? ch ")")%N = false ->
  parse_atom fuel (c :: s) n = Some (a, s1, n1) ->
  s1 = h :: t -> is_quantifier h = false ->
  parse_seq fuel s1 n1 = Some (r, s3, n3) ->
  parse_seq (S fuel) (c :: s) n = Some (Seq a r, s3, n3).
Proof.
  intros Hc Ha -> Hq Hr. simpl. simpl in Hc. rewrite Hc, Ha.
  rewrite (parse_quantifier_none _ _ _ Hq). by rewrite Hr.
Qed.

Lemma parse_seq_escape s : forall fuel n,
  length s + 3 <= fuel ->
  parse_seq fuel (escape s ++ py "\b") n
  = Some (lits s (Seq Boundary Eps), [], n).
Proof.
  induction s as [|c s IH]; intros fuel n Hfuel.
  - do 3 (destruct fuel as [|fuel]; [simpl in Hfuel; lia|]). reflexivity.
  - destruct fuel as [|fuel]; [simpl in Hfuel; lia|].
    destruct fuel as [|fuel]; [simpl in Hfuel; lia|].
    destruct (escape_head s (py "\b")) as (h & t & Ht & Hq);
      [by eexists _, _|].
    simpl escape. simpl lits.
    destruct (is_special c) eqn:Hc; simpl app.
    + eapply parse_seq_atom; [done|by apply parse_atom_escaped|exact Ht|exact Hq|].
      apply IH. simpl in Hfuel. lia.
    + eapply parse_seq_atom; [|by apply parse_atom_plain|exact Ht|exact Hq|].
      * rewrite !(not_special_neq c _ Hc) by special_member. done.
      * apply IH. simpl in Hfuel. lia.
Qed.

Lemma length_escape s : length s <= length (escape s).
Proof.
  induction s as [|c s IH]; simpl; [done|].
  rewrite length_app. destruct (is_special c); simpl; lia.
Qed.

(** The pattern [\b<escaped name>\b] always compiles, and to the literal
    run of the name's characters between two word-boundary tests. *)
Lemma compile_escape name :
  compile (py "\b" ++ escape name ++ py "\b")
  = Some (Seq Boundary (lits name (Seq Boundary Eps))).
Proof.
  unfold compile.
  set (tail := escape name ++ py "\b").
  assert (Hlen : length name + 2 <= length tail).
  { unfold tail. rewrite length_app. pose proof (length_escape name).
    simpl. lia. }
  change (py "\b" ++ tail) with (ch "\" :: ch "b" :: tail).
  remember (3 * length (ch "\" :: ch "b" :: tail) + 3) as fuel eqn:Hfuel.
  simpl length in Hfuel.
  do 3 (destruct fuel as [|fuel]; [lia|]).
  destruct (escape_head name (py "\b")) as (h & t & Ht & Hq);
    [by eexists _, _|].
  fold tail in Ht.
  assert (Hseq : parse_seq (S (S fuel)) (ch "\" :: ch "b" :: tail) 0
                 = Some (Seq Boundary (lits name (Seq Boundary Eps)), [], 0)).
  { eapply parse_seq_atom; [done|reflexivity|exact Ht|exact Hq|].
    apply parse_seq_escape. lia. }
  change (parse_alt (S (S (S fuel))) (ch "\" :: ch "b" :: tail) 0)
    with (match parse_seq (S (S fuel)) (ch "\" :: ch "b" :: tail) 0 with
          | None => None
          | Some (r1, s1, n1) =>
              match s1 with
              | c :: s2 =>
                  if (c =? ch "|")%N then
                    match parse_alt (S (S fuel)) s2 n1 with
                    | Some (r2, s3, n2) => Some (Alt r1 r2, s3, n2)
                    | None => None
                    end
                  else Some (r1, s1, n1)
              | [] => Some (r1, s1, n1)
              end
          end).
  by rewrite Hseq.
Qed.

(** ** The matcher moves forward in one subject *)

Section MatcherFacts.
Context `{UnicodeDb}.

Lemma eat_passes p : passes (eat p).
Proof.
  intros k [b a] g res. unfold eat; simpl.
  destruct a as [|x a]; [done|]. destruct (p x); [|done].
  intros Hk. exists (Cursor (x :: b) a), g. split; [apply reach_step|done].
Qed.

Lemma repeat_passes step fuel : passes step -> passes (repeat step fuel).
Proof.
  intros Hstep. induction fuel as [|fuel IH]; intros k c g res; simpl.
  - intros Hk. exists c, g. split; [apply reach_refl|done].
  - destruct (step _ c g) as [res'|] eqn:Hs.
    + intros [= ->]. apply Hstep in Hs as (c1 & g1 & Hr1 & Hk1).
      destruct (length (after c1) <? length (after c)); [|done].
      apply IH in Hk1 as (c2 & g2 & Hr2 & Hk2).
      exists c2, g2. split; [by eapply reach_trans|done].
    + intros Hk. exists c, g. split; [apply reach_refl|done].
Qed.

Lemma run_passes fl r : passes (run fl r).
Proof.
  induction r as [| x | neg items | cat | | | r1 IH1 r2 IH2 | r1 IH1 r2 IH2
                 | r IH | r IH | r IH | n r IH]; intros k c g res; simpl.
  - intros Hk. exists c, g. split; [apply reach_refl|done].
  - apply eat_passes.
  - apply eat_passes.
  - apply eat_passes.
  - destruct (at_boundary c); [|done].
    intros Hk. exists c, g. split; [apply reach_refl|done].
  - destruct (at_bol fl c); [|done].
    intros Hk. exists c, g. split; [apply reach_refl|done].
  - intros Hs. apply IH1 in Hs as (c1 & g1 & Hr1 & Hs).
    apply IH2 in Hs as (c2 & g2 & Hr2 & Hk).
    exists c2, g2. split; [by eapply reach_trans|done].
  - destruct (run fl r1 k c g) as [res'|] eqn:Hs.
    + intros [= ->]. by apply IH1 in Hs.
    + apply IH2.
  - apply repeat_passes, IH.
  - intros Hs. apply IH in Hs as (c1 & g1 & Hr1 & Hs).
    apply (repeat_passes _ _ IH) in Hs as (c2 & g2 & Hr2 & Hk).
    exists c2, g2. split; [by eapply reach_trans|done].
  - destruct (run fl r k c g) as [res'|] eqn:Hs.
    + intros [= ->]. by apply IH in Hs.
    + intros Hk. exists c, g. split; [apply reach_refl|done].
  - intros Hs. apply IH in Hs as (c1 & g1 & Hr1 & Hk). by exists c1, (<[n:=consumed c c1]> g1).
Qed.

(** A match starts where it was tried and ends at or after that position;
    under [must_advance] it is not empty. *)
Lemma match_at_Some fl r must c m :
  match_at fl r must c = Some m ->
  m_start m = c /\ reach c (m_end m)
  /\ (must = true -> length (after (m_end m)) < length (after c)).
Proof.
  unfold match_at. destruct (run fl r _ c ∅) as [[c' g']|] eqn:Hrun; [|done].
  intros [= <-]; simpl. apply run_passes in Hrun as (c1 & g1 & Hr & Hk).
  destruct (must && (length (after c1) =? length (after c))) eqn:Hm; [done|].
  injection Hk as -> ->. split; [done|]. split; [done|].
  intros ->. simpl in Hm. apply Nat.eqb_neq in Hm.
  apply reach_length in Hr. lia.
Qed.

Lemma match_at_cursor_at fl r must text i m :
  i <= length text ->
  match_at fl r must (cursor_at text i) = Some m ->
  m_start m = cursor_at text i
  /\ exists e, i <= e <= length text /\ m_end m = cursor_at text e
               /\ (must = true -> i < e).
Proof.
  intros Hi Hm. apply match_at_Some in Hm as (Hs & Hr & Hadv). split; [done|].
  destruct (reach_cursor_at _ _ _ Hi Hr) as (e & He & Hc & _).
  exists e. split; [done|]. split; [done|].
  intros Hmust. specialize (Hadv Hmust).
  rewrite Hc, !after_cursor_at_length in Hadv. lia.
Qed.

(** ** Groups on every way through a pattern *)

Lemma eat_keeps n p k : keeps n k -> keeps n (eat p k).
Proof.
  intros Hk [b a] g res. unfold eat; simpl.
  destruct a as [|x a]; [done|]. destruct (p x); [|done]. apply Hk.
Qed.

Lemma repeat_keeps n step fuel k :
  (forall k', keeps n k' -> keeps n (step k')) ->
  keeps n k -> keeps n (repeat step fuel k).
Proof.
  intros Hstep Hk. induction fuel as [|fuel IH]; intros c g res; simpl.
  - apply Hk.
  - destruct (step _ c g) as [res'|] eqn:Hs; [|apply Hk].
    intros [= ->]. revert Hs. apply Hstep.
    intros c' g' res'. destruct (length (after c') <? length (after c)); [|done].
    apply IH.
Qed.

Lemma run_keeps n fl r : forall k, keeps n k -> keeps n (run fl r k).
Proof.
  induction r as [| x | neg items | cat | | | r1 IH1 r2 IH2 | r1 IH1 r2 IH2
                 | r IH | r IH | r IH | m r IH]; intros k Hk.
  - done.
  - by apply eat_keeps.
  - by apply eat_keeps.
  - by apply eat_keeps.
  - intros c g res; simpl. destruct (at_boundary c); [apply Hk|done].
  - intros c g res; simpl. destruct (at_bol fl c); [apply Hk|done].
  - intros c g res; simpl. by apply IH1, IH2.
  - intros c g res; simpl.
    destruct (run fl r1 k c g) as [res'|] eqn:Hs.
    + intros [= ->]. revert Hs. by apply IH1.
    + by apply IH2.
  - intros c g res; simpl. by apply repeat_keeps.
  - intros c g res; simpl. apply IH.
    intros c' g' res'. by apply repeat_keeps.
  - intros c g res; simpl.
    destruct (run fl r k c g) as [res'|] eqn:Hs.
    + intros [= ->]. revert Hs. by apply IH.
    + apply Hk.
  - intros c g res; simpl. apply IH.
    intros c' g' res' Hres Hg. apply (Hk _ _ _ Hres).
    by apply lookup_insert_is_Some'; right.
Qed.

Lemma run_sets_group n fl r : forall k c g res,
  sets_group n r = true -> keeps n k ->
  run fl r k c g = Some res -> is_Some (res.2 !! n).
Proof.
  induction r as [| x | neg items | cat | | | r1 IH1 r2 IH2 | r1 IH1 r2 IH2
                 | r IH | r IH | r IH | m r IH];
    intros k c g res Hsets Hk; simpl in Hsets; try done; simpl.
  - apply orb_true_iff in Hsets as [Hsets|Hsets].
    + apply IH1; [done|]. by apply run_keeps.
    + intros (c' & g' & _ & Hrun)%run_passes. by eapply IH2.
  - apply andb_true_iff in Hsets as [Hs1 Hs2].
    destruct (run fl r1 k c g) as [res'|] eqn:Hs.
    + intros [= ->]. by eapply IH1.
    + by apply IH2.
  - apply IH; [done|]. intros c' g' res'. apply repeat_keeps; [|done].
    intros k'. apply run_keeps.
  - apply orb_true_iff in Hsets as [->%Nat.eqb_eq|Hsets].
    + intros (c' & g' & _ & Hres)%run_passes.
      apply (Hk _ _ _ Hres). by apply lookup_insert_is_Some'; left.
    + apply IH; [done|]. intros c' g' res' Hres Hg. apply (Hk _ _ _ Hres).
      by apply lookup_insert_is_Some'; right.
Qed.

Lemma match_at_sets_group n fl r must c m :
  sets_group n r = true ->
  match_at fl r must c = Some m -> is_Some (group n m).
Proof.
  intros Hsets. unfold match_at.
  destruct (run fl r _ c ∅) as [[c' g']|] eqn:Hrun; [|done].
  intros [= <-]. unfold group; simpl.
  apply (run_sets_group n) in Hrun; [done|done|].
  intros c1 g1 res.
  destruct (must && (length (after c1) =? length (after c))); [done|].
  by intros [= <-].
Qed.

(** ** Literal runs *)

Lemma run_lits_app fl s rest k g : forall b a,
  run fl (lits s rest) k (Cursor b (s ++ a)) g
  = run fl rest k (Cursor (reverse s ++ b) a) g.
Proof.
  induction s as [|x s IH]; intros b a; [done|].
  simpl. unfold eat; simpl. rewrite N.eqb_refl, IH.
  by rewrite reverse_cons, <- app_assoc.
Qed.

Lemma run_lits_Some fl s rest k g res : forall b a,
  run fl (lits s rest) k (Cursor b a) g = Some res ->
  exists a', a = s ++ a'.
Proof.
  induction s as [|x s IH]; intros b a; [by exists a|].
  simpl. unfold eat; simpl. destruct a as [|y a]; [done|].
  destruct (N.eqb_spec y x) as [->|]; [|done].
  intros (a' & ->)%IH. by exists a'.
Qed.

(** ** Searching and scanning *)

(** [search_from] returns the match at the first position that has one. *)
Lemma search_from_spec fl r text n : forall i must,
  length text - i = n -> i <= length text ->
  match search_from fl r must (reverse (take i text)) (drop i text) with
  | Some m =>
      exists j, i <= j <= length text
        /\ match_at fl r (must && bool_decide (j = i)) (cursor_at text j) = Some m
        /\ forall j', i <= j' < j ->
             match_at fl r (must && bool_decide (j' = i)) (cursor_at text j') = None
  | None =>
      forall j, i <= j <= length text ->
        match_at fl r (must && bool_decide (j = i)) (cursor_at text j) = None
  end.
Proof.
  induction n as [|n IH]; intros i must Hn Hi.
  - assert (Hd : drop i text = []) by (apply drop_ge; lia).
    rewrite Hd. simpl.
    assert (Hc : Cursor (reverse (take i text)) [] = cursor_at text i).
    { unfold cursor_at. by rewrite Hd. }
    rewrite Hc.
    destruct (match_at fl r must (cursor_at text i)) as [m|] eqn:Hm.
    + exists i. split; [lia|]. rewrite bool_decide_eq_true_2 by done.
      rewrite andb_true_r. split; [done|]. intros j' ?; lia.
    + intros j Hj. assert (j = i) as -> by lia.
      rewrite bool_decide_eq_true_2 by done. by rewrite andb_true_r.
  - destruct (lookup_lt_is_Some_2 text i) as [x Hx]; [lia|].
    destruct (cursor_at_S _ _ _ Hx) as [HS Ha]. simpl in HS, Ha.
    rewrite Ha. simpl. rewrite <- Ha.
    change (Cursor (reverse (take i text)) (drop i text)) with (cursor_at text i).
    destruct (match_at fl r must (cursor_at text i)) as [m|] eqn:Hm.
    + exists i. split; [lia|]. rewrite bool_decide_eq_true_2 by done.
      rewrite andb_true_r. split; [done|]. intros j' ?; lia.
    + specialize (IH (S i) false). simpl in IH.
      assert (Hb : x :: reverse (take i text) = reverse (take (S i) text)).
      { by rewrite (take_S_r _ _ _ Hx), reverse_snoc. }
      rewrite Hb.
      destruct (search_from fl r false (reverse (take (S i) text))
                  (drop (S i) text)) as [m|] eqn:Hsearch.
      * destruct IH as (j & Hj & Hmj & Hmin); [lia..|].
        exists j. split; [lia|].
        rewrite bool_decide_eq_false_2 by lia. rewrite andb_false_r.
        split; [done|]. intros j' Hj'.
        destruct (decide (j' = i)) as [->|Hne].
        -- rewrite bool_decide_eq_true_2 by done. by rewrite andb_true_r.
        -- rewrite bool_decide_eq_false_2 by done. rewrite andb_false_r.
           apply Hmin. lia.
      * intros j Hj. destruct (decide (j = i)) as [->|Hne].
        -- rewrite bool_decide_eq_true_2 by done. by rewrite andb_true_r.
        -- rewrite bool_decide_eq_false_2 by done. rewrite andb_false_r.
           apply IH; lia.
Qed.

(** Every match the scanner yields is the outcome of an attempt at some
    position of the subject. *)
Lemma scan_sound fl r text fuel : forall must i m,
  i <= length text ->
  m ∈ scan fuel fl r must (cursor_at text i) ->
  exists j must', i <= j <= length text
    /\ match_at fl r must' (cursor_at text j) = Some m.
Proof.
  induction fuel as [|fuel IH]; intros must i m Hi; simpl.
  - by intros ?%elem_of_nil.
  - pose proof (search_from_spec fl r text _ i must eq_refl Hi) as Hsp.
    destruct (search_from fl r must (reverse (take i text)) (drop i text))
      as [m0|]; [|by intros ?%elem_of_nil].
    destruct Hsp as (j & Hj & Hm0 & _).
    intros [->|Hin]%elem_of_cons.
    + by exists j, (must && bool_decide (j = i)).
    + destruct (match_at_cursor_at _ _ _ _ _ _ (proj2 Hj) Hm0)
        as (_ & e & He & Hend & _).
      rewrite Hend in Hin. apply IH in Hin as (j' & must' & Hj' & Hm); [|lia].
      exists j', must'. split; [lia|done].
Qed.

(** With enough rounds, a position that has a match is either the start of
    a match the scanner yields or lies inside one. *)
Lemma scan_covers fl r text fuel : forall (must : bool) i j mq,
  i <= length text ->
  2 * (length text - i) + (if must then 0 else 1) <= fuel ->
  (if must then i < j else i <= j) -> j <= length text ->
  match_at fl r false (cursor_at text j) = Some mq ->
  exists m, m ∈ scan fuel fl r must (cursor_at text i)
    /\ (m_start m = cursor_at text j
        \/ pos (m_start m) < j < pos (m_end m)).
Proof.
  induction fuel as [|fuel IH]; intros must i j mq Hi Hfuel Hij Hj Hmq.
  - destruct must; lia.
  - simpl.
    pose proof (search_from_spec fl r text _ i must eq_refl Hi) as Hsp.
    assert (Hflag : must && bool_decide (j = i) = false).
    { destruct must; [|done]. rewrite bool_decide_eq_false_2 by lia. done. }
    destruct (search_from fl r must (reverse (take i text)) (drop i text))
      as [m0|].
    2:{ rewrite <- Hflag, Hsp in Hmq; [done|]. destruct must; lia. }
    destruct Hsp as (j0 & Hj0 & Hm0 & Hmin).
    assert (Hle : j0 <= j).
    { destruct (decide (j0 <= j)) as [|Hgt]; [done|].
      rewrite <- Hflag, Hmin in Hmq; [done|]. destruct must; lia. }
    destruct (match_at_cursor_at _ _ _ _ _ _ (proj2 Hj0) Hm0)
      as (Hstart & e & He & Hend & Hadv).
    assert (Hps : pos (m_start m0) = j0) by (rewrite Hstart; apply pos_cursor_at; lia).
    assert (Hpe : pos (m_end m0) = e) by (rewrite Hend; apply pos_cursor_at; lia).
    destruct (decide (j = j0)) as [->|Hne].
    { exists m0. split; [apply elem_of_cons; by left|by left]. }
    destruct (decide (j < e)) as [Hlt|Hge].
    { exists m0. split; [apply elem_of_cons; by left|right; lia]. }
    rewrite Hps, Hpe, Hend.
    destruct (IH (e =? j0) e j mq) as (m & Hin & Hcov); [lia| | |done|done|].
    + destruct (Nat.eqb_spec e j0) as [->|Hej].
      * destruct (decide (j0 = i)) as [->|Hji]; [|lia].
        destruct must; [|lia].
        enough (i < i) by lia. apply Hadv. by rewrite bool_decide_eq_true_2.
      * lia.
    + destruct (Nat.eqb_spec e j0); lia.
    + exists m. split; [apply elem_of_cons; by right|done].
Qed.

Lemma finditer_sound fl r text m :
  m ∈ finditer fl r text ->
  exists j must, j <= length text
    /\ match_at fl r must (cursor_at text j) = Some m.
Proof.
  unfold finditer. rewrite <- (cursor_at_0 text).
  intros (j & must & Hj & Hm)%scan_sound; [|lia].
  exists j, must. split; [lia|done].
Qed.

Lemma finditer_covers fl r text j mq :
  j <= length text ->
  match_at fl r false (cursor_at text j) = Some mq ->
  exists m, m ∈ finditer fl r text
    /\ (m_start m = cursor_at text j
        \/ pos (m_start m) < j < pos (m_end m)).
Proof.
  intros Hj Hmq. unfold finditer. rewrite <- (cursor_at_0 text).
  eapply scan_covers; [lia|simpl; lia|simpl; lia|done|done].
Qed.

(** ** The pattern of [is_documented] *)

Lemma word_before_reverse l a :
  word_before (Cursor (reverse l) a) = ends_with_word l.
Proof.
  unfold word_before, ends_with_word; simpl.
  destruct l as [|x l _] using rev_ind.
  - by rewrite reverse_nil.
  - by rewrite reverse_snoc, last_snoc.
Qed.

Lemma at_boundary_word_boundary l r :
  at_boundary (Cursor (reverse l) r) = true <-> word_boundary l r.
Proof.
  unfold at_boundary, word_boundary. rewrite word_before_reverse.
  unfold word_after, starts_with_word; simpl.
  destruct (ends_with_word l), (match r with [] => false | x :: _ => is_word x end);
    simpl; split; congruence.
Qed.

Lemma match_at_name fl name b a :
  is_Some (match_at fl (name_regex name) false (Cursor b a))
  <-> at_boundary (Cursor b a) = true
      /\ exists a', a = name ++ a'
           /\ at_boundary (Cursor (reverse name ++ b) a') = true.
Proof.
  unfold match_at, name_regex; simpl run.
  destruct (at_boundary (Cursor b a)) eqn:Hb.
  2:{ split; [by intros [? [=]]|by intros [[=] _]]. }
  split.
  - intros Hs. split; [done|].
    destruct (run fl (lits name (Seq Boundary Eps)) _ (Cursor b a) ∅)
      as [[c' g']|] eqn:Hrun; [|by destruct Hs].
    destruct (run_lits_Some _ _ _ _ _ _ _ _ Hrun) as [a' ->].
    exists a'. split; [done|].
    rewrite run_lits_app in Hrun. simpl in Hrun.
    by destruct (at_boundary (Cursor (reverse name ++ b) a')).
  - intros (_ & a' & -> & Hb'). rewrite run_lits_app. simpl. rewrite Hb'. eauto.
Qed.

Lemma search_name_iff name text :
  is_Some (search no_flags (name_regex name) text) <-> whole_word_in name text.
Proof.
  unfold search.
  pose proof (search_from_spec no_flags (name_regex name) text _ 0 false
                eq_refl (Nat.le_0_l _)) as Hsp.
  rewrite take_0, drop_0, reverse_nil in Hsp. split.
  - intros [m Hm]. rewrite Hm in Hsp. destruct Hsp as (j & Hj & Hmj & _).
    simpl in Hmj. assert (Hs : is_Some (match_at no_flags (name_regex name)
                                          false (cursor_at text j))) by eauto.
    apply match_at_name in Hs as (Hb & a' & Ha & Hb').
    exists (take j text), a'. split; [by rewrite <- Ha, take_drop|].
    split.
    + rewrite <- Ha. by apply at_boundary_word_boundary.
    + apply at_boundary_word_boundary. by rewrite reverse_app.
  - intros (l & r & -> & Hb & Hb').
    destruct (search_from no_flags (name_regex name) false [] (l ++ name ++ r))
      as [m|]; [eauto|].
    specialize (Hsp (length l)). simpl in Hsp.
    assert (Hc : cursor_at (l ++ name ++ r) (length l)
                 = Cursor (reverse l) (name ++ r)).
    { unfold cursor_at. by rewrite take_app_length, drop_app_length. }
    rewrite Hc in Hsp.
    assert (Hs : is_Some (match_at no_flags (name_regex name) false
                            (Cursor (reverse l) (name ++ r)))).
    { apply match_at_name. split; [by apply at_boundary_word_boundary|].
      exists r. split; [done|]. rewrite <- reverse_app.
      by apply at_boundary_word_boundary. }
    rewrite Hsp in Hs; [by destruct Hs|]. rewrite length_app. lia.
Qed.

(** ** Greedy runs of one character class *)

Lemma span_app_eq p l : l = (span_while p l).1 ++ (span_while p l).2.
Proof.
  induction l as [|x l IH]; simpl; [done|].
  destruct (p x); simpl; [by rewrite <- IH|done].
Qed.



Lemma span_unique p w r :
  Forall (fun x => p x = true) w -> head_is p r = false ->
  span_while p (w ++ r) = (w, r).
Proof.
  intros Hw Hr. induction Hw as [|x w Hx _ IH]; simpl.
  - destruct r as [|y r]; [done|]. simpl in *. by rewrite Hr.
  - by rewrite Hx, IH.
Qed.


Lemma span_length p l : length (span_while p l).1 <= length l.
Proof. rewrite (span_app_eq p l) at 2. rewrite length_app. lia. Qed.

(** A greedy repetition of a one-character step stops after the longest
    run, provided the continuation accepts there or refuses wherever the
    run could still go on. *)
Lemma repeat_eat_span step p k g :
  (forall k c g, step k c g = eat p k c g) ->
  forall fuel b a,
    length (span_while p a).1 <= fuel ->
    is_Some (k (Cursor (reverse (span_while p a).1 ++ b) (span_while p a).2) g)
    \/ (forall c', head_is p (after c') = true -> k c' g = None) ->
    repeat step fuel k (Cursor b a) g
    = k (Cursor (reverse (span_while p a).1 ++ b) (span_while p a).2) g.
Proof.
  intros Hstep. induction fuel as [|fuel IH]; intros b a Hlen Hk.
  - simpl. destruct (span_while p a).1 as [|? ?] eqn:Hw; [|simpl in Hlen; lia].
    pose proof (span_app_eq p a) as Ha. rewrite Hw in Ha. simpl in Ha.
    by rewrite <- Ha.
  - simpl. rewrite Hstep. unfold eat; simpl.
    destruct a as [|x a]; [done|]. simpl in *.
    destruct (p x) eqn:Hp; simpl in *; [|done].
    rewrite (proj2 (Nat.ltb_lt _ _)) by lia.
    rewrite reverse_cons, <- app_assoc in *. simpl in *.
    rewrite IH; [|lia|done].
    destruct (k (Cursor (reverse (span_while p a).1 ++ x :: b) (span_while p a).2) g)
      as [res|] eqn:Hres; [done|].
    destruct Hk as [[? [=]]|Hk]. apply Hk. simpl. done.
Qed.

(** ** The pattern of the globals *)

Lemma run_Seq fl r1 r2 k c g :
  run fl (Seq r1 r2) k c g = run fl r1 (run fl r2 k) c g.
Proof. done. Qed.




(** The five function patterns are inside the parser's fragment too. *)
Lemma patterns_compile :
  Forall (fun pattern => is_Some (compile pattern)) patterns.
Proof. repeat constructor; by eexists. Qed.

(** In all six patterns group 1 lies on every way through the pattern, so
    every match the program looks at holds it. *)
Lemma program_patterns_set_group1 pattern r :
  pattern ∈ global_pattern :: patterns ->
  compile pattern = Some r -> sets_group 1 r = true.
Proof.
  unfold patterns. intros Hin.
  repeat (apply elem_of_cons in Hin as [->|Hin];
          [intros Hc; vm_compute in Hc; by injection Hc as <-|]).
  by apply elem_of_nil in Hin.
Qed.

Lemma finditer_group1 pattern text fl m :
  pattern ∈ global_pattern :: patterns ->
  m ∈ re_finditer pattern text fl -> is_Some (group 1 m).
Proof.
  intros Hin. unfold re_finditer.
  destruct (compile pattern) as [r|] eqn:Hc; [|by intros ?%elem_of_nil].
  intros (j & must & _ & Hm)%finditer_sound.
  eapply match_at_sets_group; [|done].
  by eapply program_patterns_set_group1.
Qed.



Lemma in_set_identifier_start x :
  in_set false [IRange 65 90; IRange 97 122; IChar 95] x = identifier_start x.
Proof.
  unfold in_set, identifier_start, is_ascii_alpha; simpl.
  by rewrite orb_false_r, orb_assoc.
Qed.

Lemma space_not_identifier_start x :
  is_space x = true -> identifier_start x = false.
Proof.
  unfold is_space, identifier_start, is_ascii_alpha, is_ascii_space, in_range.
  change (ch "_") with 95%N.
  destruct (N.ltb_spec x 128) as [Hlt|Hge].
  - intros Hs.
    repeat match goal with
           | |- context [(?a <=? ?b)%N] => destruct (N.leb_spec a b)
           | |- context [(?a =? ?b)%N] => destruct (N.eqb_spec a b)
           | H : context [(?a <=? ?b)%N] |- _ => destruct (N.leb_spec a b)
           | H : context [(?a =? ?b)%N] |- _ => destruct (N.eqb_spec a b)
           end; simpl in *; try done; lia.
  - intros _.
    repeat match goal with
           | |- context [(?a <=? ?b)%N] => destruct (N.leb_spec a b)
           | |- context [(?a =? ?b)%N] => destruct (N.eqb_spec a b)
           end; simpl; try done; lia.
Qed.

Lemma run_ident_None fl k c g :
  head_is identifier_start (after c) = false ->
  run fl ident_regex k c g = None.
Proof.
  unfold ident_regex. rewrite run_Seq.
  change (run fl (CharSet ?n ?i) ?k' c g) with (eat (in_set n i) k' c g).
  unfold eat. destruct (after c) as [|x a]; [done|].
  rewrite in_set_identifier_start. simpl. by intros ->.
Qed.


Lemma run_spaces fl k b a g :
  (forall c', head_is is_space (after c') = true -> k c' g = None) ->
  run fl (Plus (Cat CatSpace)) k (Cursor b a) g
  = match (span_while is_space a).1 with
    | [] => None
    | _ :: _ =>
        k (Cursor (reverse (span_while is_space a).1 ++ b) (span_while is_space a).2) g
    end.
Proof.
  intros Hk.
  change (run fl (Plus (Cat CatSpace)) k (Cursor b a) g)
    with (eat is_space
            (fun c' g' =>
               repeat (run fl (Cat CatSpace)) (length (after c')) k c' g')
            (Cursor b a) g).
  unfold eat; simpl. destruct a as [|x a]; [done|]. simpl.
  destruct (is_space x); simpl; [|done].
  rewrite (repeat_eat_span _ is_space); [|done|apply span_length|by right].
  by rewrite reverse_cons, <- app_assoc.
Qed.





End MatcherFacts.


End ReFacts.

(** ** The codec *)

Module Utf8Facts.
Import Utf8.

(** A well-formed sequence is a non-empty prefix, and is read the same
    whatever follows it. *)
Lemma decode_one_split bs c rest :
  decode_one bs = Some (c, rest) ->
  exists pre, bs = pre ++ rest /\ pre <> []
    /\ forall rest', decode_one (pre ++ rest') = Some (c, rest').
Proof.
  unfold decode_one. destruct bs as [|b0 r0]; [done|].
  destruct (b0 <? 128)%N eqn:E1.
  { intros [= <- <-]. exists [b0]. split; [done|]. split; [done|].
    intros rest'. simpl. by rewrite E1. }
  destruct (in_range 194 223 b0) eqn:E2.
  { destruct r0 as [|b1 r1]; [done|].
    destruct (is_continuation b1) eqn:E3; [|done].
    intros [= <- <-]. exists [b0; b1]. split; [done|]. split; [done|].
    intros rest'. simpl. by rewrite E1, E2, E3. }
  destruct (in_range 224 239 b0) eqn:E3.
  { destruct r0 as [|b1 [|b2 r2]]; [done..|].
    match goal with |- (if ?t then _ else _) = _ -> _ => destruct t eqn:E4 end;
      [|done].
    intros [= <- <-]. exists [b0; b1; b2]. split; [done|]. split; [done|].
    intros rest'. simpl. by rewrite E1, E2, E3, E4. }
  destruct (in_range 240 244 b0) eqn:E4; [|done].
  destruct r0 as [|b1 [|b2 [|b3 r3]]]; [done..|].
  match goal with |- (if ?t then _ else _) = _ -> _ => destruct t eqn:E5 end;
    [|done].
  intros [= <- <-]. exists [b0; b1; b2; b3]. split; [done|]. split; [done|].
  intros rest'. simpl. by rewrite E1, E2, E3, E4, E5.
Qed.

#[local] Arguments decode_one : simpl never.

Lemma decode_one_shorter bs c rest :
  decode_one bs = Some (c, rest) -> length rest < length bs.
Proof.
  intros (pre & -> & Hpre & _)%decode_one_split. rewrite length_app.
  destruct pre; [done|simpl; lia].
Qed.

(** [Ignore] never raises. *)
Lemma decode_loop_ignore_ok fuel : forall bs,
  exists s, decode_loop fuel Ignore bs = Ok s.
Proof.
  induction fuel as [|fuel IH]; intros bs; simpl; [by eexists|].
  destruct bs as [|b tl]; [by eexists|].
  destruct (decode_one (b :: tl)) as [[c rest]|].
  - destruct (IH rest) as [s ->]. simpl. by eexists.
  - apply IH.
Qed.

(** Any number of rounds from the length of the input on gives the same
    outcome. *)
Lemma decode_loop_fuel e fuel : forall fuel' bs,
  length bs <= fuel -> length bs <= fuel' ->
  decode_loop fuel e bs = decode_loop fuel' e bs.
Proof.
  induction fuel as [|fuel IH]; intros fuel' bs Hf Hf'.
  - destruct bs; [|simpl in Hf; lia]. by destruct fuel'.
  - destruct bs as [|b tl]; [by destruct fuel'|].
    destruct fuel' as [|fuel']; [simpl in Hf'; lia|]. simpl in *.
    destruct (decode_one (b :: tl)) as [[c rest]|] eqn:Hone.
    + apply decode_one_shorter in Hone. simpl in Hone.
      rewrite (IH fuel' rest); [done|lia..].
    + destruct e; [done|]. apply IH; lia.
Qed.

(** What [Ignore] returns is the strict decoding of the input with some
    bytes left out: nothing is put in their place. *)
Lemma decode_loop_ignore_kept fuel : forall bs s,
  decode_loop fuel Ignore bs = Ok s ->
  exists kept, kept `sublist_of` bs
    /\ decode_loop (length kept) Strict kept = Ok s.
Proof.
  induction fuel as [|fuel IH]; intros bs s; simpl.
  { intros [= <-]. exists []. split; [apply sublist_nil_l|done]. }
  destruct bs as [|b tl].
  { intros [= <-]. exists []. split; [done|done]. }
  destruct (decode_one (b :: tl)) as [[c rest]|] eqn:Hone.
  - destruct (decode_loop fuel Ignore rest) as [s'|] eqn:Hrest; [|done].
    simpl. intros [= <-].
    destruct (IH _ _ Hrest) as (kept & Hsub & Hstrict).
    destruct (decode_one_split _ _ _ Hone) as (pre & Hbs & Hpre & Hany).
    exists (pre ++ kept). split.
    + rewrite Hbs. by apply sublist_app.
    + destruct pre as [|x pre]; [done|]. simpl.
      change (x :: pre ++ kept) with ((x :: pre) ++ kept). rewrite Hany.
      rewrite (decode_loop_fuel Strict _ (length kept) kept);
        [by rewrite Hstrict|rewrite length_app; lia|done].
  - intros (kept & Hsub & Hstrict)%IH.
    exists kept. split; [by apply sublist_cons|done].
Qed.

(** On well-formed input [Ignore] and [Strict] agree. *)
Lemma decode_loop_strict_ignore fuel : forall bs s,
  decode_loop fuel Strict bs = Ok s -> decode_loop fuel Ignore bs = Ok s.
Proof.
  induction fuel as [|fuel IH]; intros bs s; simpl; [done|].
  destruct bs as [|b tl]; [done|].
  destruct (decode_one (b :: tl)) as [[c rest]|]; [|done].
  destruct (decode_loop fuel Strict rest) as [s'|] eqn:Hrest; [|done].
  by rewrite (IH _ _ Hrest).
Qed.

Lemma sublist_map_inv {A B} (f : A -> B) (k : list B) (l : list A) :
  k `sublist_of` map f l ->
  exists l', l' `sublist_of` l /\ k = map f l'.
Proof.
  revert k. induction l as [|x l IH]; intros k Hsub; simpl in Hsub.
  - apply sublist_nil_r in Hsub as ->. by exists [].
  - apply sublist_cons_r in Hsub as [Hsub|(k' & -> & Hsub)].
    + destruct (IH _ Hsub) as (l' & Hl' & ->).
      exists l'. split; [by apply sublist_cons|done].
    + destruct (IH _ Hsub) as (l' & Hl' & ->).
      exists (x :: l'). split; [by apply sublist_skip|done].
Qed.

Lemma decode_ignore_ok data : exists text, decode Ignore data = Ok text.
Proof. apply decode_loop_ignore_ok. Qed.

Lemma decode_ignore_kept data text :
  decode Ignore data = Ok text ->
  exists kept, kept `sublist_of` data /\ decode Strict kept = Ok text.
Proof.
  unfold decode. intros (kept & Hsub & Hstrict)%decode_loop_ignore_kept.
  apply sublist_map_inv in Hsub as (kept' & Hsub & ->).
  by exists kept'.
Qed.

Lemma decode_strict_ignore data text :
  decode Strict data = Ok text -> decode Ignore data = Ok text.
Proof. apply decode_loop_strict_ignore. Qed.

(** ** What [Ignore] leaves out *)

(** The sequence at the head of some bytes, told apart from what follows. *)
Lemma decode_one_bytes (data : list byte) c rest :
  decode_one (map Byte.to_N data) = Some (c, rest) ->
  exists pre post,
    data = pre ++ post /\ pre <> [] /\ rest = map Byte.to_N post.
Proof.
  intros Hone. destruct (decode_one_split _ _ _ Hone) as (preN & Heq & Hne & _).
  apply map_eq_app in Heq as (pre & post & -> & <- & <-).
  exists pre, post. split; [done|]. split; [|done]. by destruct pre.
Qed.

Lemma without_offending_sublist data kept :
  without_offending data kept -> kept `sublist_of` data.
Proof.
  induction 1 as [|pre rest kept c _ _ IH|b rest kept _ _ IH].
  - done.
  - by apply sublist_app.
  - by apply sublist_cons.
Qed.

Lemma without_offending_inv data kept :
  without_offending data kept ->
  match decode_one (map Byte.to_N data) with
  | Some (c, restN) =>
      exists pre rest kept',
        data = pre ++ rest /\ restN = map Byte.to_N rest
        /\ kept = pre ++ kept' /\ without_offending rest kept'
  | None =>
      match data with
      | [] => kept = []
      | b :: rest => without_offending rest kept
      end
  end.
Proof.
  intros [|pre rest kept' c Hone Hrest|b rest kept' Hone Hrest].
  - done.
  - rewrite Hone. by exists pre, rest, kept'.
  - by rewrite Hone.
Qed.

(** The offending bytes of a file are determined by its bytes. *)
Lemma without_offending_unique data kept :
  without_offending data kept ->
  forall kept', without_offending data kept' -> kept' = kept.
Proof.
  induction 1 as [|pre rest kept c Hone _ IH|b rest kept Hone _ IH];
    intros kept' Hkept'%without_offending_inv.
  - done.
  - rewrite Hone in Hkept'.
    destruct Hkept' as (pre' & rest' & k' & Heq & Hrest & -> & Hk').
    apply (f_equal length) in Hrest. rewrite !length_map in Hrest.
    apply app_inj_2 in Heq as [-> ->]; [|done]. f_equal. by apply IH.
  - rewrite Hone in Hkept'. by apply IH.
Qed.

(** [Ignore] decodes what is left of the bytes without the offending
    ones. *)
Lemma decode_loop_ignore_without fuel : forall (data : list byte) s,
  length data <= fuel ->
  decode_loop fuel Ignore (map Byte.to_N data) = Ok s ->
  exists kept,
    without_offending data kept
    /\ decode_loop (length kept) Strict (map Byte.to_N kept) = Ok s.
Proof.
  induction fuel as [|fuel IH]; intros data s Hlen; simpl.
  { destruct data; [|simpl in Hlen; lia]. intros [= <-].
    exists []. split; [constructor|done]. }
  destruct data as [|b tl].
  { intros [= <-]. exists []. split; [constructor|done]. }
  change (map Byte.to_N (b :: tl)) with (Byte.to_N b :: map Byte.to_N tl).
  cbv iota.
  change (Byte.to_N b :: map Byte.to_N tl) with (map Byte.to_N (b :: tl)).
  destruct (decode_one (map Byte.to_N (b :: tl))) as [[c rest]|] eqn:Hone.
  - destruct (decode_one_bytes _ _ _ Hone) as (pre & post & Heq & Hne & ->).
    destruct (decode_loop fuel Ignore (map Byte.to_N post)) as [s'|] eqn:Hrest;
      [|done].
    simpl. intros [= <-].
    assert (Hpost : length post <= fuel).
    { apply (f_equal length) in Heq. rewrite length_app in Heq.
      simpl in *. destruct pre; [done|]. simpl in Heq. lia. }
    destruct (IH _ _ Hpost Hrest) as (kept & Hkept & Hstrict).
    exists (pre ++ kept). rewrite Heq in Hone |- *. split.
    + by econstructor.
    + destruct (decode_one_split _ _ _ Hone) as (preN & HeqN & HneN & Hany).
      rewrite map_app in HeqN. apply app_inj_2 in HeqN as [HpreN _]; [|done].
      destruct pre as [|x pre]; [done|]. rewrite length_app. simpl.
      change (Byte.to_N x :: map Byte.to_N (pre ++ kept))
        with (map Byte.to_N ((x :: pre) ++ kept)).
      rewrite map_app, HpreN, Hany.
      rewrite (decode_loop_fuel Strict _ (length kept) (map Byte.to_N kept));
        [by rewrite Hstrict|rewrite length_map; lia|by rewrite length_map].
  - intros Hrest. simpl in Hlen.
    destruct (IH tl s) as (kept & Hkept & Hstrict); [lia|done|].
    exists kept. split; [by constructor|done].
Qed.

Lemma decode_ignore_without data text :
  decode Ignore data = Ok text ->
  exists kept, without_offending data kept /\ decode Strict kept = Ok text.
Proof.
  unfold decode. rewrite length_map.
  intros (kept & Hkept & Hstrict)%decode_loop_ignore_without; [|done].
  exists kept. by rewrite length_map.
Qed.

(** Bytes that decode strictly hold no offending byte. *)
Lemma decode_loop_strict_without fuel : forall (data : list byte) s,
  length data <= fuel ->
  decode_loop fuel Strict (map Byte.to_N data) = Ok s ->
  without_offending data data.
Proof.
  induction fuel as [|fuel IH]; intros data s Hlen; simpl.
  { destruct data; [|simpl in Hlen; lia]. constructor. }
  destruct data as [|b tl]; [constructor|].
  change (map Byte.to_N (b :: tl)) with (Byte.to_N b :: map Byte.to_N tl).
  cbv iota.
  change (Byte.to_N b :: map Byte.to_N tl) with (map Byte.to_N (b :: tl)).
  destruct (decode_one (map Byte.to_N (b :: tl))) as [[c rest]|] eqn:Hone;
    [|done].
  destruct (decode_one_bytes _ _ _ Hone) as (pre & post & Heq & Hne & ->).
  destruct (decode_loop fuel Strict (map Byte.to_N post)) as [s'|] eqn:Hrest;
    [|done].
  intros _. rewrite Heq in Hone |- *. econstructor; [done|].
  apply (IH _ s'); [|done].
  apply (f_equal length) in Heq. rewrite length_app in Heq.
  simpl in *. destruct pre; [done|]. simpl in Heq. lia.
Qed.

Lemma decode_strict_without data text :
  decode Strict data = Ok text -> without_offending data data.
Proof.
  unfold decode. rewrite length_map. by apply decode_loop_strict_without.
Qed.

End Utf8Facts.

(** * The claims *)

Section Claims.
Context `{UnicodeDb}.
Import Re ReAux ReFacts.

Lemma is_documented_search name doc_text :
  is_documented name doc_text
  = if bool_decide (doc_text = []) then false
    else bool_decide (is_Some (search no_flags (name_regex name) doc_text)).
Proof. unfold is_documented, re_search. by rewrite compile_escape. Qed.

(** C2. [is_documented name corpus] holds exactly when the corpus is not
    empty and holds [name], character for character (so case-sensitively,
    and with nothing in the name read as pattern syntax), between two word
    boundaries; on the empty corpus it is false. The search pattern is the
    literal run of the name's characters between two [\b] tests. *)
Theorem is_documented_whole_word (name corpus : str) :
  (is_documented name corpus = true
     <-> corpus <> [] /\ whole_word_in name corpus)
  /\ is_documented name [] = false
  /\ compile (py "\b" ++ escape name ++ py "\b")
     = Some (Seq Boundary (lits name (Seq Boundary Eps))).
Proof.
  split; [|split; [done|apply compile_escape]].
  rewrite is_documented_search. case_bool_decide as Hempty.
  - split; [done|]. by intros [? _].
  - rewrite bool_decide_eq_true, search_name_iff. tauto.
Qed.

(** ** Counting over the set of names *)

Lemma sum_ones {A} (l : list A) : sum_list (map (fun _ => 1) l) = length l.
Proof. induction l as [|x l IH]; simpl; [done|by rewrite IH]. Qed.

Lemma elements_names_set (names : list str) :
  elements (list_to_set names : gset str) ≡ₚ remove_dups names.
Proof.
  apply NoDup_Permutation.
  - apply NoDup_elements.
  - apply NoDup_remove_dups.
  - intros x. by rewrite elem_of_elements, elem_of_list_to_set, elem_of_remove_dups.
Qed.

Lemma compute_coverage_counts names doc_text :
  compute_coverage names doc_text
  = (length (filter (fun name => is_documented name doc_text = true)
                    (remove_dups names)),
     length (remove_dups names)).
Proof.
  unfold compute_coverage. pose proof (elements_names_set names) as Hperm.
  case_bool_decide as Hempty.
  - rewrite Hempty, elements_empty in Hperm.
    apply Permutation_nil_l in Hperm. by rewrite <- Hperm.
  - rewrite sum_ones. unfold size, set_size; simpl. by rewrite Hperm.
Qed.

(** C6. [compute_coverage] counts over the distinct names: the total is
    their number and the documented count the number of those that
    [is_documented] accepts, which is [(0, 0)] when there is no name; two
    sequences with the same members, however often repeated, give the same
    pair. The names of the scenario give [(2, 4)]. *)
Theorem compute_coverage_distinct (names : list str) (corpus : str) :
  compute_coverage names corpus
  = (length (filter (fun name => is_documented name corpus = true)
                    (remove_dups names)),
     length (remove_dups names))
  /\ compute_coverage [] corpus = (0, 0)
  /\ (forall names' : list str,
        (forall name, name ∈ names' <-> name ∈ names) ->
        compute_coverage names' corpus = compute_coverage names corpus)
  /\ compute_coverage
       [py "moduleA:foo"; py "moduleA:untracked"; py "moduleA:bar";
        py "moduleB:baz"]
       (py "moduleA:foo moduleA:bar cables") = (2, 4).
Proof.
  split; [apply compute_coverage_counts|]. split; [done|]. split.
  - intros names' Hsame. unfold compute_coverage.
    assert (Hset : (list_to_set names' : gset str) = list_to_set names).
    { apply set_eq. intros x. by rewrite !elem_of_list_to_set. }
    by rewrite Hset.
  - rewrite compute_coverage_counts. by vm_compute.
Qed.

(** C7. A documentation root that does not exist gives the empty corpus
    without an exception, and against the empty corpus no name is
    documented: every tally has a documented count of zero. *)
Theorem missing_doc_root_documents_nothing :
  load_docs None = Ok []
  /\ (forall name : str, is_documented name [] = false)
  /\ (forall names : list str, (compute_coverage names []).1 = 0).
Proof.
  split; [done|]. split; [done|].
  intros names. rewrite compute_coverage_counts. simpl.
  induction (remove_dups names) as [|x l IH]; [done|].
  by rewrite filter_cons_False.
Qed.

(** C1. The search is for the whole qualified name: on the corpus of the
    repository's test the qualified name is not found, although its bare
    trailing token is. *)
Theorem qualified_name_not_found_by_bare_token :
  is_documented (py "bootstrap/local/sass-compiler.js:compileSCSS")
    (py "The loader calls compileSCSS before injectCSS runs.") = false
  /\ is_documented (py "compileSCSS")
       (py "The loader calls compileSCSS before injectCSS runs.") = true.
Proof. split; by vm_compute. Qed.

(** ** What the two sets of [extract_symbols] hold *)

Lemma elem_of_foldl_add_group1 (name : str) ms : forall acc,
  name ∈ foldl add_group1 acc ms
  <-> name ∈ acc \/ exists m, m ∈ ms /\ group 1 m = Some name.
Proof.
  induction ms as [|m ms IH]; intros acc; simpl.
  - split; [by left|]. intros [?|(m & Hm%elem_of_nil & _)]; done.
  - rewrite IH. unfold add_group1 at 1.
    split.
    + intros [Hacc|(m' & Hin & Hg)].
      * destruct (group 1 m) as [s|] eqn:Hg; [|by left].
        apply elem_of_union in Hacc as [->%elem_of_singleton|Hacc]; [|by left].
        right. exists m. split; [left|done].
      * right. exists m'. split; [by right|done].
    + intros [Hacc|(m' & [->|Hin]%elem_of_cons & Hg)].
      * left. destruct (group 1 m); [apply elem_of_union; by right|done].
      * left. rewrite Hg. apply elem_of_union; left. by apply elem_of_singleton.
      * right. eauto.
Qed.

Lemma elem_of_globals text (name : str) :
  name ∈ (extract_symbols text).1
  <-> exists m, m ∈ re_finditer global_pattern text MULTILINE
                /\ group 1 m = Some name.
Proof.
  unfold extract_symbols; cbn [fst]. rewrite elem_of_foldl_add_group1.
  split; [intros [?%elem_of_empty|?]; done|by right].
Qed.

Lemma elem_of_foldl_patterns text (name : str) ps : forall acc,
  name ∈ foldl (fun acc pattern =>
                  foldl add_group1 acc (re_finditer pattern text no_flags))
               acc ps
  <-> name ∈ acc
      \/ exists pattern m, pattern ∈ ps
           /\ m ∈ re_finditer pattern text no_flags /\ group 1 m = Some name.
Proof.
  induction ps as [|p ps IH]; intros acc; simpl.
  - split; [by left|]. intros [?|(? & ? & ?%elem_of_nil & _)]; done.
  - rewrite IH, elem_of_foldl_add_group1. split.
    + intros [[?|(m & Hm & Hg)]|(p' & m & Hp & Hm & Hg)].
      * by left.
      * right. exists p, m. split; [left|done].
      * right. exists p', m. split; [by right|done].
    + intros [?|(p' & m & [->|Hp]%elem_of_cons & Hm & Hg)].
      * by left; left.
      * left; right. eauto.
      * right. eauto.
Qed.

Lemma elem_of_functions text (name : str) :
  name ∈ (extract_symbols text).2
  <-> exists pattern m, pattern ∈ patterns
        /\ m ∈ re_finditer pattern text no_flags /\ group 1 m = Some name.
Proof.
  unfold extract_symbols; cbn [snd]. rewrite elem_of_foldl_patterns.
  split; [intros [?%elem_of_empty|?]; done|by right].
Qed.

(** C4, as amended. The two sets are filled independently and are not
    checked against each other: a name is in both exactly when the
    line-start declaration pattern captures it and one of the five function
    patterns captures it as well. *)
Theorem extract_symbols_overlap (text name : str) :
  name ∈ (extract_symbols text).1 /\ name ∈ (extract_symbols text).2
  <-> (exists m, m ∈ re_finditer global_pattern text MULTILINE
                 /\ group 1 m = Some name)
      /\ (exists pattern m, pattern ∈ patterns
            /\ m ∈ re_finditer pattern text no_flags
            /\ group 1 m = Some name).
Proof. by rewrite elem_of_globals, elem_of_functions. Qed.

(** C3, as amended. On the text of the scenario the globals are
    [topLevel], [another], [legacy] and also [arrow], whose line starts
    with [const]; the functions include [declared] and [arrow]. *)
Theorem extract_symbols_scenario :
  (extract_symbols (py "const topLevel = 1
let another = 2
var legacy
function declared() {}
const arrow = () => {}")).1
  = {[ py "topLevel"; py "another"; py "legacy"; py "arrow" ]}
  /\ {[ py "declared"; py "arrow" ]}
     ⊆ (extract_symbols (py "const topLevel = 1
let another = 2
var legacy
function declared() {}
const arrow = () => {}")).2.
Proof.
  split.
  - by vm_compute.
  - apply (bool_decide_unpack _). by vm_compute.
Qed.

(** ** The source enumerator *)

Lemma path_name_joinpath root entry : path_name (joinpath root entry) = entry.
Proof. unfold path_name, joinpath. by rewrite last_snoc. Qed.

Lemma elem_of_collect_source_files code_root (p : path) :
  p ∈ collect_source_files code_root ->
  path_suffix p ∈ extensions
  /\ exists root dirs files entry,
       (root, dirs, files)
         ∈ walk (fun d => bool_decide (d ∉ ignore_dirs)) [] code_root
       /\ entry ∈ files /\ p = joinpath root entry.
Proof.
  unfold collect_source_files.
  intros Hp%list_elem_of_In. apply in_flat_map in Hp as ([[root dirs] fs] & Hw & Hp).
  apply list_elem_of_In, list_elem_of_filter in Hp as [Hsuf Hp].
  apply list_elem_of_In, in_map_iff in Hp as (entry & <- & Hentry).
  split; [done|]. exists root, dirs, fs, entry.
  by rewrite <- !list_elem_of_In in *.
Qed.

(** C10. A path is yielded only if its suffix is, character for character,
    one of [.js], [.jsx], [.ts], [.tsx]: a suffix that is one of them up to
    letter case is that very one. The suffixes of [APP.JS] and [main.Ts]
    are [.JS] and [.Ts], so files of these names are never yielded. *)
Theorem collect_source_files_case_sensitive (code_root : tree) (p : path) :
  p ∈ collect_source_files code_root ->
  path_suffix p ∈ [py ".js"; py ".jsx"; py ".ts"; py ".tsx"]
  /\ (forall e, e ∈ extensions -> lower (path_suffix p) = e ->
        path_suffix p = e)
  /\ path_name p <> py "APP.JS" /\ path_name p <> py "main.Ts".
Proof.
  intros (Hsuf & _)%elem_of_collect_source_files. split; [done|]. split.
  - intros e _ <-. unfold extensions in Hsuf.
    repeat (apply elem_of_cons in Hsuf as [->|Hsuf]; [reflexivity|]).
    by apply elem_of_nil in Hsuf.
  - unfold path_suffix in Hsuf.
    split; intros Hname; rewrite Hname in Hsuf;
      apply (bool_decide_pack _) in Hsuf; by vm_compute in Hsuf.
Qed.

(** ** The report *)

(** C8. When no source file is found, the three tallies are [(0, 0)] and
    the overall percentage is 100, whatever the corpus. *)
Theorem empty_scan_reports_full_coverage
    (code_root : tree) (doc_root : option (list (list byte))) (doc_text : str) :
  collect_source_files code_root = [] ->
  load_docs doc_root = Ok doc_text ->
  main code_root doc_root
  = Ok (Report (0, 0) (0, 0) (0, 0) (Qc_of_Z 100)).
Proof. intros Hnone Hdocs. unfold main. by rewrite Hdocs, Hnone. Qed.

(** ** The globals *)





(** ** Decoding faults *)

Lemma read_text_ignore code_root rel :
  read_text code_root rel Utf8.Ignore = Raise OSError
  \/ exists text, read_text code_root rel Utf8.Ignore = Ok text.
Proof.
  unfold read_text, read_data.
  destruct (read_bytes code_root rel) as [data|]; [|by left].
  right. destruct (Utf8Facts.decode_ignore_ok data) as [decoded ->].
  by eexists.
Qed.

Lemma scan_files_no_decode_fault code_root paths : forall acc,
  scan_files code_root paths acc <> Raise UnicodeDecodeError.
Proof.
  induction paths as [|rel paths IH]; intros [[ms gs] fs]; simpl; [done|].
  destruct (read_text_ignore code_root rel) as [->|[text ->]]; simpl; [done|].
  destruct (extract_symbols text). apply IH.
Qed.

Lemma main_no_decode_fault code_root doc_root doc_text :
  load_docs doc_root = Ok doc_text ->
  main code_root doc_root <> Raise UnicodeDecodeError.
Proof.
  intros Hdocs. unfold main. rewrite Hdocs. simpl.
  pose proof (scan_files_no_decode_fault code_root
                (collect_source_files code_root) ([], [], [])) as Hscan.
  destruct (scan_files _ _ _) as [[[ms gs] fs]|e]; simpl; [|congruence].
  by repeat destruct (compute_coverage _ _).
Qed.

Lemma scan_files_step code_root rel text paths ms gs fs :
  read_text code_root rel Utf8.Ignore = Ok text ->
  scan_files code_root (rel :: paths) (ms, gs, fs)
  = scan_files code_root paths
      (ms ++ [path_str rel],
       gs ++ map (qualified rel) (elements (extract_symbols text).1),
       fs ++ map (qualified rel) (elements (extract_symbols text).2)).
Proof.
  intros Hread. cbn [scan_files]. rewrite Hread. cbn [bind].
  by destruct (extract_symbols text).
Qed.

(** C5, as amended. A source file whose bytes are not well-formed UTF-8 is
    still read, and what is read is fixed by the bytes: the text is the
    strict decoding of the file without its offending bytes, each
    well-formed sequence kept in place and nothing put where a byte was
    left out, so that a well-formed file is read as it is. The scan goes on
    with that text: the names the loop adds for the file are those
    [extract_symbols] finds in it. No decoding fault of a source file
    reaches the caller of [main]. *)
Theorem source_decode_faults_are_dropped
    (code_root : tree) (rel : path) (data : list byte) :
  read_bytes code_root rel = Some data ->
  (exists kept decoded,
     without_offending data kept
     /\ (forall kept', without_offending data kept' -> kept' = kept)
     /\ (kept `sublist_of` data)
     /\ Utf8.decode Utf8.Strict kept = Ok decoded
     /\ (forall decoded',
           Utf8.decode Utf8.Strict data = Ok decoded' ->
           kept = data /\ decoded' = decoded)
     /\ read_text code_root rel Utf8.Ignore = Ok (universal_newlines decoded)
     /\ (forall paths ms gs fs,
           scan_files code_root (rel :: paths) (ms, gs, fs)
           = scan_files code_root paths
               (ms ++ [path_str rel],
                gs ++ map (qualified rel)
                        (elements
                           (extract_symbols (universal_newlines decoded)).1),
                fs ++ map (qualified rel)
                        (elements
                           (extract_symbols (universal_newlines decoded)).2))))
  /\ (forall paths acc,
        scan_files code_root paths acc <> Raise UnicodeDecodeError)
  /\ (forall doc_root doc_text,
        load_docs doc_root = Ok doc_text ->
        main code_root doc_root <> Raise UnicodeDecodeError).
Proof.
  intros Hread. split; [|split].
  - destruct (Utf8Facts.decode_ignore_ok data) as [decoded Hdec].
    destruct (Utf8Facts.decode_ignore_without _ _ Hdec)
      as (kept & Hkept & Hstrict).
    assert (Htext : read_text code_root rel Utf8.Ignore
                    = Ok (universal_newlines decoded)).
    { unfold read_text, read_data. by rewrite Hread, Hdec. }
    exists kept, decoded. split; [done|].
    split; [by apply Utf8Facts.without_offending_unique|].
    split; [by apply Utf8Facts.without_offending_sublist|].
    split; [done|]. split; [|split; [done|]].
    + intros decoded' Hdata. split.
      * apply Utf8Facts.decode_strict_without in Hdata as Hsame.
        symmetry. by apply (Utf8Facts.without_offending_unique data kept).
      * apply Utf8Facts.decode_strict_ignore in Hdata. congruence.
    + intros paths ms gs fs. by apply scan_files_step.
  - intros paths acc. apply scan_files_no_decode_fault.
  - intros doc_root doc_text. apply main_no_decode_fault.
Qed.

End Claims.

(** * Further properties *)

(** ** The walk *)




(** ** What the groups hold *)

Module ReMoreFacts.
Import Re ReAux ReFacts ReMore.

Section GroupFacts.
Context `{UnicodeDb}.

(** What a repetition of a one-character step has consumed when it calls
    its continuation. *)
Lemma repeat_eat_consumes step p :
  (forall k c g, step k c g = eat p k c g) ->
  forall fuel k b a g res,
    repeat step fuel k (Cursor b a) g = Some res ->
    exists w a', a = w ++ a' /\ Forall (fun x => p x = true) w
      /\ k (Cursor (reverse w ++ b) a') g = Some res.
Proof.
  intros Hstep. induction fuel as [|fuel IH]; intros k b a g res; simpl.
  - intros Hk. by exists [], a.
  - rewrite Hstep. unfold eat; simpl.
    destruct a as [|x a]; [intros Hk; by exists [], []|].
    destruct (p x) eqn:Hp; [|intros Hk; by exists [], (x :: a)].
    simpl. rewrite (proj2 (Nat.ltb_lt _ _)) by lia.
    destruct (repeat step fuel k (Cursor (x :: b) a) g) as [res'|] eqn:Hrep.
    + intros [= ->]. apply IH in Hrep as (w & a' & -> & Hw & Hk).
      exists (x :: w), a'. split; [done|]. split; [by constructor|].
      by rewrite reverse_cons, <- app_assoc.
    + intros Hk. by exists [], (x :: a).
Qed.

Lemma run_ident_consumes fl k c g res :
  run fl ident_regex k c g = Some res ->
  exists c', k c' g = Some res /\ identifier (consumed c c').
Proof.
  unfold ident_regex. rewrite run_Seq.
  change (run fl (CharSet ?n ?i) ?k' c g) with (eat (in_set n i) k' c g).
  unfold eat. destruct c as [b a]; cbn [after before].
  destruct a as [|x a]; [done|].
  rewrite in_set_identifier_start. destruct (identifier_start x) eqn:Hx; [|done].
  rewrite run_Seq.
  change (run fl (Star (Cat CatWord)) ?k' ?c' g)
    with (repeat (run fl (Cat CatWord)) (length (after c')) k' c' g).
  cbn [after]. change (run fl Eps k) with k.
  intros (w & a' & -> & Hw & Hk)%(repeat_eat_consumes _ is_word); [|done].
  eexists. split; [exact Hk|]. unfold consumed; simpl.
  rewrite length_app.
  replace (S (length w + length a') - length a') with (S (length w)) by lia.
  simpl. rewrite take_app_length. by exists x, w.
Qed.

Lemma eat_keeps_identifier p k :
  keeps_identifier k -> keeps_identifier (eat p k).
Proof.
  intros Hk [b a] g res. unfold eat; simpl.
  destruct a as [|x a]; [done|]. destruct (p x); [|done]. apply Hk.
Qed.

Lemma repeat_keeps_identifier step fuel k :
  (forall k', keeps_identifier k' -> keeps_identifier (step k')) ->
  keeps_identifier k -> keeps_identifier (repeat step fuel k).
Proof.
  intros Hstep Hk. induction fuel as [|fuel IH]; intros c g res; simpl.
  - apply Hk.
  - destruct (step _ c g) as [res'|] eqn:Hs; [|apply Hk].
    intros [= ->]. revert Hs. apply Hstep.
    intros c' g' res'. destruct (length (after c') <? length (after c)); [|done].
    apply IH.
Qed.

Lemma insert_holds_identifier n v (g : groups) :
  (n = 1 -> identifier v) ->
  holds_identifier g -> holds_identifier (<[n:=v]> g).
Proof.
  intros Hv Hg v' Hlook. destruct (decide (n = 1)) as [->|Hne].
  - apply lookup_insert_Some in Hlook as [[_ <-]|[? _]]; [by apply Hv|done].
  - apply lookup_insert_Some in Hlook as [[? _]|[_ Hlook]]; [done|by apply Hg].
Qed.

Lemma run_keeps_identifier fl r : forall k,
  group1_is_ident r -> keeps_identifier k -> keeps_identifier (run fl r k).
Proof.
  induction r as [| x | neg items | cat | | | r1 IH1 r2 IH2 | r1 IH1 r2 IH2
                 | r IH | r IH | r IH | m r IH]; intros k Hr Hk; simpl in Hr.
  - done.
  - by apply eat_keeps_identifier.
  - by apply eat_keeps_identifier.
  - by apply eat_keeps_identifier.
  - intros c g res; simpl. destruct (at_boundary c); [apply Hk|done].
  - intros c g res; simpl. destruct (at_bol fl c); [apply Hk|done].
  - destruct Hr as [Hr1 Hr2]. intros c g res; simpl.
    apply IH1; [done|]. by apply IH2.
  - destruct Hr as [Hr1 Hr2]. intros c g res; simpl.
    destruct (run fl r1 k c g) as [res'|] eqn:Hs.
    + intros [= ->]. revert Hs. by apply IH1.
    + by apply IH2.
  - intros c g res; simpl. apply repeat_keeps_identifier; [|done].
    intros k'. by apply IH.
  - intros c g res; simpl. apply IH; [done|].
    intros c' g' res'. apply repeat_keeps_identifier; [|done].
    intros k'. by apply IH.
  - intros c g res; simpl.
    destruct (run fl r k c g) as [res'|] eqn:Hs.
    + intros [= ->]. revert Hs. by apply IH.
    + apply Hk.
  - intros c g res; simpl. destruct (decide (m = 1)) as [->|Hne].
    + subst r. intros (c' & Hres & Hid)%run_ident_consumes Hg.
      apply (Hk _ _ _ Hres). by apply insert_holds_identifier.
    + apply IH; [done|]. intros c' g' res' Hres Hg.
      apply (Hk _ _ _ Hres). by apply insert_holds_identifier.
Qed.

Lemma match_at_identifier fl r must c m name :
  group1_is_ident r ->
  match_at fl r must c = Some m -> group 1 m = Some name -> identifier name.
Proof.
  intros Hr. unfold match_at.
  destruct (run fl r _ c ∅) as [[c' g']|] eqn:Hrun; [|done].
  intros [= <-]. unfold group; simpl.
  intros Hname. eapply (run_keeps_identifier fl r); [exact Hr| |exact Hrun| |exact Hname].
  - intros c1 g1 res.
    destruct (must && (length (after c1) =? length (after c))); [done|].
    by intros [= <-].
  - done.
Qed.

Lemma program_patterns_group1 pattern r :
  pattern ∈ global_pattern :: patterns ->
  compile pattern = Some r -> group1_is_ident r.
Proof.
  unfold patterns. intros Hin.
  repeat (apply elem_of_cons in Hin as [->|Hin];
          [intros Hc; vm_compute in Hc; injection Hc as <-;
           simpl; by repeat split|]).
  by apply elem_of_nil in Hin.
Qed.

Lemma finditer_identifier pattern text fl m name :
  pattern ∈ global_pattern :: patterns ->
  m ∈ re_finditer pattern text fl ->
  group 1 m = Some name -> identifier name.
Proof.
  intros Hin. unfold re_finditer.
  destruct (compile pattern) as [r|] eqn:Hc; [|by intros ?%elem_of_nil].
  intros (j & must & _ & Hm)%finditer_sound.
  eapply match_at_identifier; [|done].
  by eapply program_patterns_group1.
Qed.

End GroupFacts.

End ReMoreFacts.

Section FurtherClaims.
Context `{UnicodeDb}.
Import Re ReAux ReFacts ReMore ReMoreFacts.


(** The loop over the source files ends well exactly when every file
    opens, and otherwise in the input/output fault of the first that does
    not. *)
Lemma scan_files_opens code_root paths : forall acc,
  ((exists collected, scan_files code_root paths acc = Ok collected)
   <-> Forall (fun p => is_Some (read_bytes code_root p)) paths)
  /\ (scan_files code_root paths acc = Raise OSError
      <-> Exists (fun p => read_bytes code_root p = None) paths).
Proof.
  induction paths as [|rel paths IH]; intros [[ms gs] fs]; cbn [scan_files].
  { split; split.
    - intros _. constructor.
    - intros _. by eexists.
    - done.
    - by intros ?%Exists_nil. }
  rewrite list.Forall_cons, Exists_cons. unfold read_text, read_data.
  destruct (read_bytes code_root rel) as [data|].
  - destruct (Utf8Facts.decode_ignore_ok data) as [decoded ->]. cbn [bind].
    destruct (extract_symbols (universal_newlines decoded)) as [gset fset].
    destruct (IH (ms ++ [path_str rel],
                  gs ++ map (qualified rel) (elements gset),
                  fs ++ map (qualified rel) (elements fset))) as [IHok IHfail].
    split.
    + rewrite IHok. split; [by split; [eexists|]|by intros [_ ?]].
    + rewrite IHfail. split; [by right|by intros [?|?]].
  - cbn [bind]. split.
    + split; [by intros [? [=]]|by intros [[? [=]] _]].
    + split; [by left|done].
Qed.

(** X2. When the documentation loads, [main] returns a report exactly when
    every source file the enumerator yields can be opened, whatever the
    bytes of these files; and it ends in an input/output fault exactly
    when one of them cannot (a dangling link, a file without read
    permission): such a fault is not caught. *)
Theorem main_reports_exactly_when_sources_open
    (code_root : tree) (doc_root : option (list (list byte))) (doc_text : str) :
  load_docs doc_root = Ok doc_text ->
  ((exists rep, main code_root doc_root = Ok rep)
   <-> forall p, p ∈ collect_source_files code_root ->
                 is_Some (read_bytes code_root p))
  /\ (main code_root doc_root = Raise OSError
      <-> exists p, p ∈ collect_source_files code_root
                    /\ read_bytes code_root p = None).
Proof.
  intros Hdocs. unfold main. rewrite Hdocs. cbn [bind].
  destruct (scan_files_opens code_root (collect_source_files code_root)
              ([], [], [])) as [Hok Hfail].
  rewrite list.Forall_forall in Hok. rewrite list.Exists_exists in Hfail.
  rewrite <- Hok, <- Hfail.
  destruct (scan_files _ _ _) as [[[ms gs] fs]|x]; cbn [bind].
  - repeat destruct (compute_coverage _ _). split; split.
    + intros _. by eexists.
    + intros _. by eexists.
    + done.
    + done.
  - split; [split; by intros [? [=]]|split; by intros [= ->]].
Qed.

(** ** The tallies and the percentage *)

Lemma length_remove_dups (l : list str) : length (remove_dups l) <= length l.
Proof.
  induction l as [|x l IH]; simpl; [done|].
  destruct (decide_rel elem_of x l); simpl; lia.
Qed.

Lemma compute_coverage_le names doc_text :
  (compute_coverage names doc_text).1 <= (compute_coverage names doc_text).2
  /\ (compute_coverage names doc_text).2 <= length names.
Proof.
  rewrite compute_coverage_counts; simpl. split; [apply length_filter|].
  apply length_remove_dups.
Qed.

Lemma percentage_range documented total :
  documented <= total ->
  Qcanon.Qcle (Qc_of_Z 0) (percentage documented total)
  /\ Qcanon.Qcle (percentage documented total) (Qc_of_Z 100)
  /\ (percentage documented total = Qc_of_Z 100 <-> documented = total).
Proof.
  intros Hle. unfold percentage.
  assert (H100 : Qcanon.Qclt (Qc_of_Z 0) (Qc_of_Z 100))
    by (by apply (proj1 (Z2Qc_inj_lt 0 100))).
  case_bool_decide as Ht.
  { subst total. assert (documented = 0) as -> by lia.
    split; [by apply Qcanon.Qclt_le_weak|].
    split; [apply Qcanon.Qcle_refl|done]. }
  assert (HT : Qcanon.Qclt (Qc_of_Z 0) (Qc_of_Z (Z.of_nat total)))
    by (apply (proj1 (Z2Qc_inj_lt 0 (Z.of_nat total))); lia).
  assert (HD : Qcanon.Qcle (Qc_of_Z 0) (Qc_of_Z (Z.of_nat documented)))
    by (apply (proj1 (Z2Qc_inj_le 0 (Z.of_nat documented))); lia).
  assert (HDT : Qcanon.Qcle (Qc_of_Z (Z.of_nat documented))
                            (Qc_of_Z (Z.of_nat total)))
    by (apply (proj1 (Z2Qc_inj_le _ _)); lia).
  assert (Hstrict : documented <> total ->
            Qcanon.Qclt (Qc_of_Z (Z.of_nat documented))
                        (Qc_of_Z (Z.of_nat total)))
    by (intros; apply (proj1 (Z2Qc_inj_lt _ _)); lia).
  assert (Heq : documented = total ->
            Qc_of_Z (Z.of_nat documented) = Qc_of_Z (Z.of_nat total))
    by (by intros ->).
  generalize dependent (Qc_of_Z (Z.of_nat documented)).
  generalize dependent (Qc_of_Z (Z.of_nat total)).
  generalize dependent (Qc_of_Z 100).
  rewrite Z2Qc_inj_0. intros C HC T HT D HD HDT Hstrict Heq.
  assert (Hinv : Qcanon.Qclt (Qcanon.Q2Qc (QArith_base.Qmake 0 1)) (Qcanon.Qcinv T)) by (by apply Qcinv_pos).
  assert (Hinv' : Qcanon.Qcle (Qcanon.Q2Qc (QArith_base.Qmake 0 1)) (Qcanon.Qcinv T))
    by (by apply Qcanon.Qclt_le_weak).
  assert (HC' : Qcanon.Qcle (Qcanon.Q2Qc (QArith_base.Qmake 0 1)) C) by (by apply Qcanon.Qclt_le_weak).
  assert (HTne : T <> Qcanon.Q2Qc (QArith_base.Qmake 0 1)) by (by apply not_eq_sym, Qcanon.Qclt_not_eq).
  assert (Hone : Qcanon.Qcmult T (Qcanon.Qcinv T) = Qcanon.Q2Qc (QArith_base.Qmake 1 1))
    by (by apply Qcanon.Qcmult_inv_r).
  unfold Qcanon.Qcdiv. split; [|split].
  - rewrite <- (Qcanon.Qcmult_0_l C).
    apply Qcanon.Qcmult_le_compat_r; [|done].
    rewrite <- (Qcanon.Qcmult_0_l (Qcanon.Qcinv T)).
    by apply Qcanon.Qcmult_le_compat_r.
  - rewrite <- (Qcanon.Qcmult_1_l C) at 2.
    apply Qcanon.Qcmult_le_compat_r; [|done].
    rewrite <- Hone. by apply Qcanon.Qcmult_le_compat_r.
  - split.
    + intros Hpct. destruct (decide (documented = total)) as [|Hne]; [done|].
      exfalso. specialize (Hstrict Hne).
      apply (Qcanon.Qcmult_lt_compat_r _ _ _ Hinv) in Hstrict.
      rewrite Hone in Hstrict.
      apply (Qcanon.Qcmult_lt_compat_r _ _ _ HC) in Hstrict.
      rewrite Hpct, Qcanon.Qcmult_1_l in Hstrict.
      by apply Qcanon.Qclt_not_eq in Hstrict.
    + intros Hdt. rewrite (Heq Hdt), Hone. apply Qcanon.Qcmult_1_l.
Qed.

(** X3. In every report of [main] each documented count is at most its
    total and the percentage lies between 0 and 100; it is 100 when every
    module, global and function is documented. (The converse holds of the
    exact ratio only, and is not stated: rounded to one decimal, as the
    program prints it, a percentage below 100 may read [100.0].) *)
Theorem report_is_consistent
    (code_root : tree) (doc_root : option (list (list byte))) (rep : report) :
  main code_root doc_root = Ok rep ->
  (modules_tally rep).1 <= (modules_tally rep).2
  /\ (globals_tally rep).1 <= (globals_tally rep).2
  /\ (functions_tally rep).1 <= (functions_tally rep).2
  /\ Qcanon.Qcle (Qc_of_Z 0) (coverage_pct rep)
  /\ Qcanon.Qcle (coverage_pct rep) (Qc_of_Z 100)
  /\ ((modules_tally rep).1 = (modules_tally rep).2
      /\ (globals_tally rep).1 = (globals_tally rep).2
      /\ (functions_tally rep).1 = (functions_tally rep).2 ->
      coverage_pct rep = Qc_of_Z 100).
Proof.
  unfold main. destruct (load_docs doc_root) as [doc_text|]; [|done]. simpl.
  destruct (scan_files _ _ _) as [[[ms gs] fs]|]; [|done]. simpl.
  pose proof (compute_coverage_le ms doc_text) as [Hm _].
  pose proof (compute_coverage_le gs doc_text) as [Hg _].
  pose proof (compute_coverage_le fs doc_text) as [Hf _].
  destruct (compute_coverage ms doc_text) as [md mt].
  destruct (compute_coverage gs doc_text) as [gd gt].
  destruct (compute_coverage fs doc_text) as [fd ft].
  simpl in *. intros [= <-]. simpl.
  destruct (percentage_range (md + gd + fd) (mt + gt + ft)) as (H0 & H1 & Heq);
    [lia|].
  do 3 (split; [done|]). split; [done|]. split; [done|].
  intros (-> & -> & ->). by apply Heq.
Qed.

(** ** The names of [extract_symbols] *)

(** X4. Every name [extract_symbols] returns, global or function, is an
    identifier: an ASCII letter or an underscore followed by word
    characters only; in particular none is empty. *)
Theorem extract_symbols_identifiers (text name : str) :
  name ∈ (extract_symbols text).1 \/ name ∈ (extract_symbols text).2 ->
  identifier name /\ name <> [].
Proof.
  intros Hname.
  assert (Hid : identifier name).
  { destruct Hname as [(m & Hm & Hg)%elem_of_globals
                      |(pattern & m & Hp & Hm & Hg)%elem_of_functions].
    - eapply finditer_identifier; [|exact Hm|exact Hg]. left.
    - eapply finditer_identifier; [|exact Hm|exact Hg]. by right. }
  split; [done|]. by destruct Hid as (c & s' & -> & _).
Qed.

(** ** The documentation corpus *)

Lemma ends_with_word_line_feed s k :
  ends_with_word (s ++ 10%N :: k) = ends_with_word k.
Proof.
  unfold ends_with_word. rewrite list.last_app, list.last_cons.
  destruct (@list.last char k); reflexivity.
Qed.

Lemma starts_with_word_line_feed k t :
  starts_with_word (k ++ 10%N :: t) = starts_with_word k.
Proof. destruct k; reflexivity. Qed.

Lemma starts_with_word_app name r :
  name <> [] -> starts_with_word (name ++ r) = starts_with_word name.
Proof. by destruct name. Qed.

Lemma ends_with_word_app l name :
  name <> [] -> ends_with_word (l ++ name) = ends_with_word name.
Proof.
  intros Hname. unfold ends_with_word. rewrite list.last_app.
  destruct (list.last name) eqn:Hlast; [done|].
  by apply last_None in Hlast.
Qed.

Lemma whole_word_in_nil name : ~ whole_word_in name [].
Proof.
  intros (l & r & Heq & Hb & _). symmetry in Heq.
  apply app_eq_nil in Heq as [-> [-> ->]%app_eq_nil]. by apply Hb.
Qed.

Lemma is_documented_whole_word_in name text :
  is_documented name text = true <-> whole_word_in name text.
Proof.
  rewrite is_documented_search. case_bool_decide as Hempty.
  - subst text. split; [done|]. by intros ?%whole_word_in_nil.
  - by rewrite bool_decide_eq_true, search_name_iff.
Qed.

(** A line feed between two texts neither makes nor breaks an occurrence
    of a name that holds no line feed. *)
Lemma whole_word_in_line_feed name s t :
  10%N ∉ name ->
  whole_word_in name (s ++ 10%N :: t)
  <-> whole_word_in name s \/ whole_word_in name t.
Proof.
  intros Hname. unfold whole_word_in, word_boundary. split.
  - intros (l & r & Heq & Hb & Hb').
    apply app_eq_inv in Heq as [(k & -> & Heq)|(k & -> & Heq)].
    + apply app_eq_inv in Heq as [(k' & -> & Heq)|(k' & -> & ->)].
      * destruct k' as [|x k'].
        -- left. exists l, []. simpl in Heq. subst r.
           rewrite !app_nil_r in *. split; [done|].
           change (starts_with_word (10%N :: t)) with (starts_with_word [])
             in Hb'.
           by rewrite starts_with_word_line_feed in Hb.
        -- injection Heq as <- _. exfalso. apply Hname.
           apply elem_of_app. right. left.
      * left. exists l, k'. split; [done|].
        rewrite (app_assoc name), starts_with_word_line_feed in Hb.
        by rewrite starts_with_word_line_feed in Hb'.
    + destruct k as [|x k].
      * simpl in Heq. destruct name as [|y name].
        -- simpl in *. subst r. rewrite app_nil_r in *.
           left. exists s, []. rewrite app_nil_r. split; [done|].
           by change (starts_with_word (10%N :: t)) with (starts_with_word [])
             in Hb.
        -- injection Heq as <- _. exfalso. apply Hname. left.
      * injection Heq as <- ->. right. exists k, r. split; [done|].
        rewrite <- app_assoc in Hb'. simpl in Hb'.
        by rewrite ends_with_word_line_feed in Hb, Hb'.
  - intros [(l & r & -> & Hb & Hb')|(l & r & -> & Hb & Hb')].
    + exists l, (r ++ 10%N :: t). split; [by rewrite <- !app_assoc|].
      rewrite (app_assoc name), !starts_with_word_line_feed. done.
    + exists (s ++ 10%N :: l), r. split; [by rewrite <- app_assoc|].
      rewrite <- app_assoc. simpl. by rewrite !ends_with_word_line_feed.
Qed.

Lemma whole_word_in_join name texts :
  10%N ∉ name ->
  whole_word_in name (join_lines texts) <-> Exists (whole_word_in name) texts.
Proof.
  intros Hname. induction texts as [|s texts IH].
  - simpl. split; [by intros ?%whole_word_in_nil|by intros ?%Exists_nil].
  - destruct texts as [|t texts].
    + simpl. rewrite Exists_cons, Exists_nil. tauto.
    + change (join_lines (s :: t :: texts))
        with (s ++ 10%N :: join_lines (t :: texts)).
      by rewrite whole_word_in_line_feed, IH, (Exists_cons _ s).
Qed.

Lemma read_all_Ok docs : forall texts,
  read_all docs = Ok texts
  <-> Forall2 (fun data text => read_data Utf8.Strict data = Ok text) docs texts.
Proof.
  induction docs as [|data docs IH]; intros texts; simpl.
  - split; [intros [= <-]; constructor|by intros ->%Forall2_nil_inv_l].
  - destruct (read_data Utf8.Strict data) as [text|e] eqn:Hdata; simpl.
    + destruct (read_all docs) as [collected|e] eqn:Hrest; simpl.
      * split.
        -- intros [= <-]. constructor; [done|by apply IH].
        -- intros (text' & texts' & Htext & Hall & ->)%Forall2_cons_inv_l.
           apply IH in Hall. congruence.
      * split; [done|].
        intros (text' & texts' & _ & Hall%IH & _)%Forall2_cons_inv_l. done.
    + split; [done|].
      intros (text' & texts' & Htext & _)%Forall2_cons_inv_l. congruence.
Qed.

(** X5. A name that holds no line feed is documented by the corpus exactly
    when one of the markdown files documents it on its own: joining the
    files with line feeds neither makes nor breaks an occurrence. *)
Theorem corpus_documents_what_a_file_documents
    (docs : list (list byte)) (corpus name : str) :
  10%N ∉ name ->
  load_docs (Some docs) = Ok corpus ->
  (is_documented name corpus = true
   <-> exists data text,
         data ∈ docs /\ read_data Utf8.Strict data = Ok text
         /\ is_documented name text = true).
Proof.
  intros Hname. unfold load_docs.
  destruct (read_all docs) as [texts|] eqn:Hall; [|done]. simpl.
  intros [= <-]. apply read_all_Ok in Hall.
  rewrite is_documented_whole_word_in, whole_word_in_join by done.
  split.
  - intros Hex. induction Hall as [|data text docs texts Hdata Hall IH];
      [by apply Exists_nil in Hex|].
    apply Exists_cons in Hex as [Hhere|Hlater].
    + exists data, text. split; [left|].
      by rewrite is_documented_whole_word_in.
    + destruct (IH Hlater) as (data' & text' & Hin & Hread & Hdoc).
      exists data', text'. split; [by right|done].
  - intros (data & text & Hin & Hread & Hdoc%is_documented_whole_word_in).
    induction Hall as [|data' text' docs texts Hdata Hall IH];
      [by apply elem_of_nil in Hin|].
    apply Exists_cons. apply elem_of_cons in Hin as [->|Hin].
    + left. congruence.
    + right. by apply IH.
Qed.

Lemma decode_loop_raise fuel e : forall bs x,
  Utf8.decode_loop fuel e bs = Raise x -> x = UnicodeDecodeError.
Proof.
  induction fuel as [|fuel IH]; intros bs x; [done|].
  cbn [Utf8.decode_loop]. destruct bs as [|b bs]; [done|].
  destruct (Utf8.decode_one (b :: bs)) as [[c rest]|].
  - destruct (Utf8.decode_loop fuel e rest) as [s|x'] eqn:Hrest; [done|].
    simpl. intros [= <-]. by eapply IH.
  - destruct e; [by intros [= <-]|apply IH].
Qed.

Lemma read_data_raise e data x :
  read_data e data = Raise x ->
  x = UnicodeDecodeError /\ Utf8.decode e data = Raise UnicodeDecodeError.
Proof.
  unfold read_data.
  destruct (Utf8.decode e data) as [decoded|x'] eqn:Hdec; [done|].
  simpl. intros [= <-]. apply decode_loop_raise in Hdec as Hx. by subst x'.
Qed.

Lemma read_all_raise_only docs x :
  read_all docs = Raise x -> x = UnicodeDecodeError.
Proof.
  revert x. induction docs as [|data docs IH]; intros x; simpl; [done|].
  destruct (read_data Utf8.Strict data) as [text|x'] eqn:Hdata; simpl.
  - destruct (read_all docs) as [collected|x']; [done|].
    simpl. intros [= <-]. by apply IH.
  - intros [= <-]. by apply read_data_raise in Hdata as [-> _].
Qed.

Lemma read_all_Raise docs :
  read_all docs = Raise UnicodeDecodeError
  <-> Exists (fun data => Utf8.decode Utf8.Strict data = Raise UnicodeDecodeError)
             docs.
Proof.
  induction docs as [|data docs IH]; simpl.
  - split; [done|by intros ?%Exists_nil].
  - rewrite Exists_cons. unfold read_data at 1.
    destruct (Utf8.decode Utf8.Strict data) as [decoded|x] eqn:Hdec; simpl.
    + destruct (read_all docs) as [collected|x]; simpl.
      * split; [done|]. intros [?|?%IH]; done.
      * rewrite <- IH. split; [by right|]. by intros [?|?].
    + apply decode_loop_raise in Hdec as ->. split; [by left|done].
Qed.

(** X6. [main] ends in a decoding fault only when the documentation root
    exists and one of its markdown files is not well-formed UTF-8: no
    source file brings one about. And where a markdown file is not
    well-formed, [main] returns no report, whatever the code root. *)
Theorem main_fails_on_malformed_docs
    (code_root : tree) (doc_root : option (list (list byte))) :
  (main code_root doc_root = Raise UnicodeDecodeError ->
   exists docs,
     doc_root = Some docs
     /\ Exists (fun data =>
                  Utf8.decode Utf8.Strict data = Raise UnicodeDecodeError)
               docs)
  /\ (forall docs,
        doc_root = Some docs ->
        Exists (fun data =>
                  Utf8.decode Utf8.Strict data = Raise UnicodeDecodeError)
               docs ->
        forall rep, main code_root doc_root <> Ok rep).
Proof.
  split.
  - destruct (load_docs doc_root) as [doc_text|x] eqn:Hdocs.
    { intros Hmain. by apply (main_no_decode_fault code_root) in Hdocs. }
    intros _. destruct doc_root as [docs|]; [|done].
    exists docs. split; [done|]. apply read_all_Raise.
    unfold load_docs in Hdocs.
    destruct (read_all docs) as [collected|x'] eqn:Hall; [done|].
    by apply read_all_raise_only in Hall as ->.
  - intros docs -> Hex%read_all_Raise rep. unfold main, load_docs.
    by rewrite Hex.
Qed.

(** ** Qualified names *)

Lemma whole_word_in_elem name corpus (x : char) :
  whole_word_in name corpus -> x ∈ name -> x ∈ corpus.
Proof.
  intros (l & r & -> & _) Hx. rewrite !elem_of_app. auto.
Qed.

Lemma qualified_colon rel name : ch ":" ∈ qualified rel name.
Proof.
  unfold qualified. rewrite !elem_of_app. right. left. left.
Qed.

Lemma scan_files_qualified code_root paths : forall ms gs fs ms' gs' fs',
  scan_files code_root paths (ms, gs, fs) = Ok (ms', gs', fs') ->
  Forall (fun n => ch ":" ∈ n) gs -> Forall (fun n => ch ":" ∈ n) fs ->
  Forall (fun n => ch ":" ∈ n) gs' /\ Forall (fun n => ch ":" ∈ n) fs'.
Proof.
  induction paths as [|rel paths IH]; intros ms gs fs ms' gs' fs'; simpl.
  - by intros [= _ <- <-].
  - destruct (read_text code_root rel Utf8.Ignore) as [text|]; [|done]. simpl.
    destruct (extract_symbols text) as [globals_set functions_set].
    intros Hscan Hgs Hfs. apply IH in Hscan; [done| |].
    + apply Forall_app. split; [done|]. apply Forall_map, Forall_true.
      intros name. apply qualified_colon.
    + apply Forall_app. split; [done|]. apply Forall_map, Forall_true.
      intros name. apply qualified_colon.
Qed.

Lemma compute_coverage_none names corpus :
  Forall (fun n => is_documented n corpus = false) names ->
  (compute_coverage names corpus).1 = 0.
Proof.
  intros Hnone. rewrite compute_coverage_counts. simpl.
  assert (Hdups : Forall (fun n => is_documented n corpus = false)
                         (remove_dups names)).
  { apply list.Forall_forall. intros n Hn.
    apply (proj1 (elem_of_remove_dups _ _)) in Hn.
    exact (proj1 (list.Forall_forall _ _) Hnone n Hn). }
  induction Hdups as [|n l Hn Hl IH]; [done|].
  rewrite filter_cons_False; [done|]. by rewrite Hn.
Qed.

(** X7. Globals and functions are looked up under their qualified names
    [<path>:<name>] only: against a corpus without a colon none of them
    counts as documented, however often the bare names are mentioned. *)
Theorem bare_names_document_no_symbol
    (code_root : tree) (doc_root : option (list (list byte)))
    (corpus : str) (rep : report) :
  load_docs doc_root = Ok corpus ->
  main code_root doc_root = Ok rep ->
  ch ":" ∉ corpus ->
  (globals_tally rep).1 = 0 /\ (functions_tally rep).1 = 0.
Proof.
  intros Hdocs Hmain Hcolon. unfold main in Hmain. rewrite Hdocs in Hmain.
  simpl in Hmain.
  destruct (scan_files _ _ _) as [[[ms gs] fs]|] eqn:Hscan; [|done].
  apply scan_files_qualified in Hscan as [Hgs Hfs]; [|done..].
  assert (Hnone : forall names,
            Forall (fun n => ch ":" ∈ n) names ->
            (compute_coverage names corpus).1 = 0).
  { intros names Hnames. apply compute_coverage_none.
    eapply Forall_impl; [|exact Hnames]. simpl. intros n Hn.
    destruct (is_documented n corpus) eqn:Hdoc; [|done].
    apply is_documented_whole_word_in in Hdoc.
    by apply (whole_word_in_elem _ _ _ Hdoc) in Hn. }
  specialize (Hnone gs Hgs) as Hg. specialize (Hnone fs Hfs) as Hf.
  simpl in Hmain.
  destruct (compute_coverage ms corpus) as [md mt].
  destruct (compute_coverage gs corpus) as [gd gt].
  destruct (compute_coverage fs corpus) as [fd ft].
  by injection Hmain as <-.
Qed.

(** ** Names that begin or end outside the word characters *)

(** X8. A name that begins with a character outside the word characters,
    as the path of a dot file does, is documented only where a word
    character stands directly before it in the corpus; likewise a name
    that ends with such a character needs a word character directly
    after it. *)
Theorem is_documented_needs_word_neighbour (name corpus : str) :
  name <> [] ->
  is_documented name corpus = true ->
  (starts_with_word name = false ->
   exists l x r, corpus = l ++ [x] ++ name ++ r /\ is_word x = true)
  /\ (ends_with_word name = false ->
      exists l x r, corpus = l ++ name ++ [x] ++ r /\ is_word x = true).
Proof.
  intros Hname (l & r & -> & Hb & Hb')%is_documented_whole_word_in.
  unfold word_boundary in *.
  rewrite starts_with_word_app in Hb by done.
  rewrite ends_with_word_app in Hb' by done. split.
  - intros Hstart. rewrite Hstart in Hb. unfold ends_with_word in Hb.
    destruct (list.last l) as [x|] eqn:Hlast; [|done].
    apply last_Some in Hlast as [l' ->]. exists l', x, r.
    split; [by rewrite <- app_assoc|]. by destruct (is_word x).
  - intros Hend. rewrite Hend in Hb'. unfold starts_with_word in Hb'.
    destruct r as [|x r]; [done|]. exists l, x, r.
    split; [done|]. by destruct (is_word x).
Qed.

(** ** Suffixes *)

Lemma rfind_dot_None s : ch "." ∉ s -> rfind_dot s = None.
Proof.
  induction s as [|c s IH]; [done|]. intros Hdot. cbn [rfind_dot].
  rewrite IH by (intros ?; apply Hdot; by right).
  destruct (N.eqb_spec c (ch ".")) as [->|]; [|done].
  exfalso. apply Hdot. left.
Qed.

Lemma rfind_dot_app stem e :
  ch "." ∉ e -> rfind_dot (stem ++ ch "." :: e) = Some (length stem).
Proof.
  intros Hdot. induction stem as [|c stem IH]; cbn [rfind_dot app].
  - rewrite rfind_dot_None by done. by rewrite N.eqb_refl.
  - by rewrite IH.
Qed.

Lemma rfind_dot_Some s i :
  rfind_dot s = Some i -> i < length s /\ s !! i = Some (ch ".").
Proof.
  revert i. induction s as [|c s IH]; intros i; [done|]. cbn [rfind_dot].
  destruct (rfind_dot s) as [j|].
  - intros [= <-]. destruct (IH j eq_refl) as [Hlt Hlook].
    split; [simpl; lia|done].
  - destruct (N.eqb_spec c (ch ".")) as [->|]; [|done].
    intros [= <-]. split; [simpl; lia|done].
Qed.

(** X9. A file name has one of the four suffixes exactly when it is a stem
    that is not empty followed by [.js], [.jsx], [.ts] or [.tsx]: a file
    named just [.js] has no suffix and is not a source file. *)
Theorem source_suffix_needs_stem (p : path) :
  path_suffix p ∈ [py ".js"; py ".jsx"; py ".ts"; py ".tsx"]
  <-> exists stem ext,
        path_name p = stem ++ ext /\ stem <> []
        /\ ext ∈ [py ".js"; py ".jsx"; py ".ts"; py ".tsx"].
Proof.
  unfold path_suffix. split.
  - destruct (rfind_dot (path_name p)) as [i|] eqn:Hdot;
      [|intros Hin; apply (bool_decide_pack _) in Hin; by vm_compute in Hin].
    destruct (0 <? i) eqn:Hi; simpl;
      [|intros Hin; apply (bool_decide_pack _) in Hin; by vm_compute in Hin].
    destruct (i <? length (path_name p) - 1);
      [|intros Hin; apply (bool_decide_pack _) in Hin; by vm_compute in Hin].
    intros Hin. exists (take i (path_name p)), (drop i (path_name p)).
    split; [by rewrite take_drop|]. split; [|done].
    apply rfind_dot_Some in Hdot as [Hlt _]. apply Nat.ltb_lt in Hi.
    intros Hnil%(f_equal length). rewrite length_take in Hnil.
    simpl in Hnil. lia.
  - intros (stem & ext & -> & Hstem & Hext).
    assert (Hshape : exists e, ext = ch "." :: e /\ (ch "." ∉ e) /\ e <> []).
    { repeat (apply elem_of_cons in Hext as [->|Hext];
              [eexists; split; [reflexivity|];
               split; [apply (bool_decide_unpack _); by vm_compute|done]|]).
      by apply elem_of_nil in Hext. }
    destruct Hshape as (e & -> & Hdot & He).
    rewrite rfind_dot_app by done.
    assert (0 < length stem) by (destruct stem; [done|simpl; lia]).
    assert (0 < length e) by (destruct e; [done|simpl; lia]).
    rewrite (proj2 (Nat.ltb_lt 0 (length stem))) by done.
    rewrite (proj2 (Nat.ltb_lt _ _)) by (rewrite length_app; simpl; lia).
    simpl. by rewrite drop_app_length.
Qed.

(** ** The function patterns *)

Lemma eat_transparent p : transparent (eat p).
Proof.
  intros k [b a] g res. unfold eat; simpl.
  destruct a as [|x a]; [done|]. destruct (p x); [|done].
  intros Hk. exists (Cursor (x :: b) a). split; [apply reach_step|done].
Qed.

Lemma repeat_transparent step fuel :
  transparent step -> transparent (repeat step fuel).
Proof.
  intros Hstep. induction fuel as [|fuel IH]; intros k c g res; simpl.
  - intros Hk. exists c. split; [apply reach_refl|done].
  - destruct (step _ c g) as [res'|] eqn:Hs.
    + intros [= ->]. apply Hstep in Hs as (c1 & Hr1 & Hk1).
      destruct (length (after c1) <? length (after c)); [|done].
      apply IH in Hk1 as (c2 & Hr2 & Hk2).
      exists c2. split; [by eapply reach_trans|done].
    + intros Hk. exists c. split; [apply reach_refl|done].
Qed.

Lemma run_group_free fl r : group_free r = true -> transparent (run fl r).
Proof.
  induction r as [| x | neg items | cat | | | r1 IH1 r2 IH2 | r1 IH1 r2 IH2
                 | r IH | r IH | r IH | n r IH]; intros Hr k c g res; simpl;
    simpl in Hr.
  - intros Hk. exists c. split; [apply reach_refl|done].
  - apply eat_transparent.
  - apply eat_transparent.
  - apply eat_transparent.
  - destruct (at_boundary c); [|done].
    intros Hk. exists c. split; [apply reach_refl|done].
  - destruct (at_bol fl c); [|done].
    intros Hk. exists c. split; [apply reach_refl|done].
  - apply andb_true_iff in Hr as [Hr1 Hr2].
    intros Hs. apply IH1 in Hs as (c1 & Hc1 & Hs); [|done].
    apply IH2 in Hs as (c2 & Hc2 & Hk); [|done].
    exists c2. split; [by eapply reach_trans|done].
  - apply andb_true_iff in Hr as [Hr1 Hr2].
    destruct (run fl r1 k c g) as [res'|] eqn:Hs.
    + intros [= ->]. by apply IH1 in Hs.
    + by apply IH2.
  - by apply repeat_transparent, IH.
  - intros Hs. apply IH in Hs as (c1 & Hc1 & Hs); [|done].
    apply repeat_transparent in Hs as (c2 & Hc2 & Hk); [|by apply IH].
    exists c2. split; [by eapply reach_trans|done].
  - destruct (run fl r k c g) as [res'|] eqn:Hs.
    + intros [= ->]. by apply IH in Hs.
    + intros Hk. exists c. split; [apply reach_refl|done].
  - done.
Qed.

Lemma consumed_app b n a' :
  consumed (Cursor b (n ++ a')) (Cursor (reverse n ++ b) a') = n.
Proof.
  unfold consumed; simpl. rewrite length_app.
  replace (length n + length a' - length a') with (length n) by lia.
  by rewrite take_app_length.
Qed.

Lemma run_ident_token fl k b a g res :
  run fl ident_regex k (Cursor b a) g = Some res ->
  exists n a', a = n ++ a' /\ identifier n
    /\ k (Cursor (reverse n ++ b) a') g = Some res.
Proof.
  unfold ident_regex. rewrite run_Seq.
  change (run fl (CharSet ?n ?i) ?k' ?c g) with (eat (in_set n i) k' c g).
  unfold eat. cbn [after before]. destruct a as [|x a]; [done|].
  rewrite in_set_identifier_start. destruct (identifier_start x) eqn:Hx; [|done].
  rewrite run_Seq.
  change (run fl (Star (Cat CatWord)) ?k' ?c' g)
    with (repeat (run fl (Cat CatWord)) (length (after c')) k' c' g).
  cbn [after]. change (run fl Eps k) with k.
  intros (w & a' & -> & Hw & Hk)%(repeat_eat_consumes _ is_word);
    [|done].
  exists (x :: w), a'. split; [done|]. split; [by exists x, w|].
  by rewrite reverse_cons, <- app_assoc.
Qed.

Lemma run_spaces_chr fl x rest k b a g res :
  run fl (Seq (Star (Cat CatSpace)) (Seq (Chr x) rest)) k (Cursor b a) g
  = Some res ->
  exists ws a', a = ws ++ x :: a'
    /\ Forall (fun y => is_space y = true) ws
    /\ run fl rest k (Cursor (x :: reverse ws ++ b) a') g = Some res.
Proof.
  rewrite run_Seq.
  change (run fl (Star (Cat CatSpace)) ?k' ?c' g)
    with (repeat (run fl (Cat CatSpace)) (length (after c')) k' c' g).
  intros (ws & a1 & -> & Hws & Hk)%(repeat_eat_consumes _ is_space);
    [|done].
  rewrite run_Seq in Hk.
  change (run fl (Chr x) ?k' ?c' g) with (eat (fun y => (y =? x)%N) k' c' g) in Hk.
  unfold eat in Hk. cbn [after before] in Hk.
  destruct a1 as [|y a1]; [done|].
  destruct (N.eqb_spec y x) as [->|]; [|done].
  by exists ws, a1.
Qed.

Lemma run_named fl x rest k b a g res :
  run fl (named x rest) k (Cursor b a) g = Some res ->
  exists n ws a', a = n ++ ws ++ x :: a' /\ identifier n
    /\ Forall (fun y => is_space y = true) ws
    /\ run fl rest k (Cursor (x :: reverse ws ++ reverse n ++ b) a')
         (<[1:=n]> g) = Some res.
Proof.
  unfold named. rewrite run_Seq.
  change (run fl (Group 1 ?r) ?k' ?c g)
    with (run fl r (fun c' g' => k' c' (<[1 := consumed c c']> g')) c g).
  intros (n & a1 & -> & Hn & Hk)%run_ident_token.
  rewrite consumed_app in Hk.
  apply run_spaces_chr in Hk as (ws & a' & -> & Hws & Hk).
  by exists n, ws, a'.
Qed.


Lemma identifier_start_word x : identifier_start x = true -> is_word x = true.
Proof.
  unfold identifier_start, is_word, is_ascii_alnum, is_ascii_alpha, in_range.
  change (ch "_") with 95%N. intros Hx.
  repeat match goal with
         | |- context [(?a <=? ?b)%N] => destruct (N.leb_spec a b)
         | |- context [(?a =? ?b)%N] => destruct (N.eqb_spec a b)
         | |- context [(?a <? ?b)%N] => destruct (N.ltb_spec a b)
         | H : context [(?a <=? ?b)%N] |- _ => destruct (N.leb_spec a b)
         | H : context [(?a =? ?b)%N] |- _ => destruct (N.eqb_spec a b)
         end; simpl in *; try done; lia.
Qed.

Lemma identifier_starts_with_word n r :
  identifier n -> starts_with_word (n ++ r) = true.
Proof. intros (x & s & -> & Hx & _). by apply identifier_start_word. Qed.

Lemma match_at_named fl x rest must b a m :
  group_free rest = true ->
  match_at fl (Seq Boundary (named x rest)) must (Cursor b a) = Some m ->
  at_boundary (Cursor b a) = true
  /\ exists n ws a', a = n ++ ws ++ x :: a' /\ identifier n
       /\ Forall (fun y => is_space y = true) ws /\ group 1 m = Some n.
Proof.
  intros Hrest. unfold match_at. rewrite run_Seq.
  change (run fl Boundary ?k ?c ?g) with (if at_boundary c then k c g else None).
  destruct (at_boundary (Cursor b a)); [|done].
  destruct (run fl (named x rest) _ _ ∅) as [[c' g']|] eqn:Hrun; [|done].
  intros [= <-]. split; [done|].
  apply run_named in Hrun as (n & ws & a' & -> & Hn & Hws & Hk).
  apply run_group_free in Hk as (c1 & _ & Hk); [|done].
  exists n, ws, a'. do 3 (split; [done|]). cbv beta in Hk.
  destruct (must && _); [done|]. injection Hk as _ <-.
  unfold group; simpl. apply lookup_insert_Some. by left.
Qed.

Lemma match_at_function fl must b a m :
  match_at fl function_regex must (Cursor b a) = Some m ->
  at_boundary (Cursor b a) = true
  /\ exists ws n ws' a',
       a = py "function" ++ ws ++ n ++ ws' ++ ch "(" :: a'
       /\ ws <> [] /\ Forall (fun y => is_space y = true) ws
       /\ identifier n /\ Forall (fun y => is_space y = true) ws'
       /\ group 1 m = Some n
       /\ m_end m = Cursor (ch "(" :: reverse ws' ++ reverse n ++ reverse ws
                              ++ reverse (py "function") ++ b) a'.
Proof.
  unfold match_at, function_regex. rewrite run_Seq.
  change (run fl Boundary ?k ?c ?g) with (if at_boundary c then k c g else None).
  destruct (at_boundary (Cursor b a)); [|done].
  destruct (run fl (lits _ _) _ _ ∅) as [[c' g']|] eqn:Hrun; [|done].
  intros [= <-]. split; [done|].
  destruct (run_lits_Some _ _ _ _ _ _ _ _ Hrun) as [a1 ->].
  rewrite run_lits_app, run_Seq in Hrun.
  change (run fl (Plus (Cat CatSpace)) ?k (Cursor ?b' a1) ?g)
    with (eat is_space
            (fun c' g' =>
               repeat (run fl (Cat CatSpace)) (length (after c')) k c' g')
            (Cursor b' a1) g) in Hrun.
  unfold eat in Hrun. cbn [after before] in Hrun.
  destruct a1 as [|y a1]; [done|]. destruct (is_space y) eqn:Hy; [|done].
  apply (repeat_eat_consumes _ is_space) in Hrun
    as (w & a2 & -> & Hw & Hrun); [|done].
  apply run_named in Hrun as (n & ws' & a' & -> & Hn & Hws' & Hk).
  change (run fl Eps ?k) with k in Hk. cbv beta in Hk.
  destruct (must && _); [done|]. injection Hk as <- <-.
  exists (y :: w), n, ws', a'. split; [done|]. split; [done|].
  split; [by constructor|]. do 2 (split; [done|]). split.
  - unfold group; simpl. apply lookup_insert_Some. by left.
  - simpl. by rewrite reverse_cons, <- !app_assoc.
Qed.

Lemma patterns_shapes pattern :
  pattern ∈ patterns ->
  compile pattern = Some function_regex
  \/ exists x rest,
       compile pattern = Some (Seq Boundary (named x rest))
       /\ group_free rest = true /\ x ∈ [ch "="; ch ":"].
Proof.
  unfold patterns. intros Hin.
  apply elem_of_cons in Hin as [->|Hin]; [by left|].
  repeat (apply elem_of_cons in Hin as [->|Hin];
          [right; do 2 eexists; split; [by vm_compute|];
           split; [done|by apply (bool_decide_unpack _)]|]).
  by apply elem_of_nil in Hin.
Qed.

(** X10. Every function name comes from the text in one of two settings:
    after the keyword [function] and whitespace, with optional whitespace
    and an opening parenthesis behind it; or with no word character before
    it and, after optional whitespace, an equals sign or a colon behind
    it. *)
Theorem functions_are_named_in_context (text name : str) :
  name ∈ (extract_symbols text).2 ->
  exists l ws x r,
    text = l ++ name ++ ws ++ x :: r
    /\ Forall (fun y => is_space y = true) ws
    /\ ((x = ch "("
         /\ exists l' ws1, l = l' ++ py "function" ++ ws1
              /\ ws1 <> [] /\ Forall (fun y => is_space y = true) ws1
              /\ ends_with_word l' = false)
        \/ (x ∈ [ch "="; ch ":"] /\ ends_with_word l = false)).
Proof.
  intros (pattern & m & Hp & Hm & Hg)%elem_of_functions.
  unfold re_finditer in Hm.
  destruct (patterns_shapes _ Hp) as [Hc|(x & rest & Hc & Hrest & Hx)];
    rewrite Hc in Hm;
    apply finditer_sound in Hm as (j & must & Hj & Hm); unfold cursor_at in Hm.
  - apply match_at_function in Hm
      as (Hb & ws & n & ws' & a' & Ha & Hne & Hws & Hn & Hws' & Hg' & _).
    assert (n = name) as -> by congruence.
    exists (take j text ++ py "function" ++ ws), ws', (ch "("), a'.
    split; [by rewrite <- !app_assoc, <- Ha, take_drop|]. split; [done|].
    left. split; [done|]. exists (take j text), ws. do 3 (split; [done|]).
    apply at_boundary_word_boundary in Hb. unfold word_boundary in Hb.
    rewrite Ha in Hb. by destruct (ends_with_word (take j text)).
  - apply match_at_named in Hm
      as (Hb & n & ws & a' & Ha & Hn & Hws & Hg'); [|done].
    assert (n = name) as -> by congruence.
    exists (take j text), ws, x, a'.
    split; [by rewrite <- Ha, take_drop|]. split; [done|].
    right. split; [done|].
    apply at_boundary_word_boundary in Hb. unfold word_boundary in Hb.
    rewrite Ha, identifier_starts_with_word in Hb by done.
    by destruct (ends_with_word (take j text)).
Qed.


Section FunctionDeclarations.
Hypothesis Hdb : forall x, is_word x = true -> is_space x = false.

Lemma head_is_space_word ws (x : char) a :
  Forall (fun y => is_space y = true) ws -> is_word x = false ->
  head_is is_word (ws ++ x :: a) = false.
Proof using Hdb.
  intros Hws Hx. destruct Hws as [|y ws Hy _]; simpl; [done|].
  destruct (is_word y) eqn:Hw; [|done]. apply Hdb in Hw. congruence.
Qed.

Lemma head_is_identifier_space n a :
  identifier n -> head_is is_space (n ++ a) = false.
Proof.
  intros (x & s & -> & Hx & _). simpl.
  destruct (is_space x) eqn:Hs; [|done].
  apply space_not_identifier_start in Hs. congruence.
Qed.

Lemma run_spaces_chr_fwd fl x rest k b ws a' g :
  Forall (fun y => is_space y = true) ws -> is_space x = false ->
  is_Some (run fl rest k (Cursor (x :: reverse ws ++ b) a') g) ->
  run fl (Seq (Star (Cat CatSpace)) (Seq (Chr x) rest)) k
      (Cursor b (ws ++ x :: a')) g
  = run fl rest k (Cursor (x :: reverse ws ++ b) a') g.
Proof.
  intros Hws Hx Hk. rewrite run_Seq.
  change (run fl (Star (Cat CatSpace)) ?k' ?c' g)
    with (repeat (run fl (Cat CatSpace)) (length (after c')) k' c' g).
  assert (Hspan : span_while is_space (ws ++ x :: a') = (ws, x :: a'))
    by (apply span_unique; [done|by simpl]).
  assert (Hstep : run fl (Seq (Chr x) rest) k (Cursor (reverse ws ++ b) (x :: a')) g
                  = run fl rest k (Cursor (x :: reverse ws ++ b) a') g).
  { rewrite run_Seq.
    change (run fl (Chr x) ?k' ?c' g) with (eat (fun y => (y =? x)%N) k' c' g).
    unfold eat. cbn [after before]. by rewrite N.eqb_refl. }
  rewrite (repeat_eat_span _ is_space); rewrite ?Hspan; cbn [fst snd].
  - done.
  - done.
  - cbn [after]. rewrite length_app. lia.
  - left. by rewrite Hstep.
Qed.

Lemma run_named_fwd fl x rest k b n ws a' g :
  identifier n -> Forall (fun y => is_space y = true) ws ->
  is_space x = false -> is_word x = false ->
  is_Some (run fl rest k (Cursor (x :: reverse ws ++ reverse n ++ b) a')
             (<[1:=n]> g)) ->
  run fl (named x rest) k (Cursor b (n ++ ws ++ x :: a')) g
  = run fl rest k (Cursor (x :: reverse ws ++ reverse n ++ b) a') (<[1:=n]> g).
Proof using Hdb.
  intros (y & s & -> & Hy & Hs) Hws Hx Hxw Hk. unfold named. rewrite run_Seq.
  change (run fl (Group 1 ?r) ?k' ?c g)
    with (run fl r (fun c' g' => k' c' (<[1 := consumed c c']> g')) c g).
  unfold ident_regex. rewrite run_Seq.
  change (run fl (CharSet ?n ?i) ?k' ?c g) with (eat (in_set n i) k' c g).
  unfold eat. cbn [after before app].
  rewrite in_set_identifier_start, Hy, run_Seq.
  change (run fl (Star (Cat CatWord)) ?k' ?c' g)
    with (repeat (run fl (Cat CatWord)) (length (after c')) k' c' g).
  change (run fl Eps ?k') with k'.
  assert (Hspan : span_while is_word (s ++ ws ++ x :: a') = (s, ws ++ x :: a'))
    by (apply span_unique; [done|by apply head_is_space_word]).
  assert (Hc : consumed (Cursor b (y :: s ++ ws ++ x :: a'))
                        (Cursor (reverse s ++ y :: b) (ws ++ x :: a')) = y :: s).
  { rewrite <- (consumed_app b (y :: s) (ws ++ x :: a')).
    by rewrite reverse_cons, <- app_assoc. }
  rewrite reverse_cons, <- app_assoc in Hk |- *. cbn [app] in Hk |- *.
  rewrite (repeat_eat_span _ is_word); rewrite ?Hspan; cbn [fst snd].
  - rewrite Hc. by apply run_spaces_chr_fwd.
  - done.
  - cbn [after]. rewrite length_app. lia.
  - left. rewrite Hc, run_spaces_chr_fwd; done.
Qed.

Lemma function_match_at fl must b ws n ws' a' :
  at_boundary (Cursor b (py "function" ++ ws ++ n ++ ws' ++ ch "(" :: a')) = true ->
  ws <> [] -> Forall (fun y => is_space y = true) ws ->
  identifier n -> Forall (fun y => is_space y = true) ws' ->
  exists m,
    match_at fl function_regex must
      (Cursor b (py "function" ++ ws ++ n ++ ws' ++ ch "(" :: a')) = Some m
    /\ group 1 m = Some n.
Proof using Hdb.
  intros Hb Hne Hws Hn Hws'. unfold match_at, function_regex. rewrite run_Seq.
  change (run fl Boundary ?k ?c ?g) with (if at_boundary c then k c g else None).
  rewrite Hb, run_lits_app, run_Seq.
  rewrite run_spaces.
  2:{ intros c' Hc'. unfold named. rewrite run_Seq.
      change (run fl (Group 1 ?r) ?k' ?c ?g)
        with (run fl r (fun c' g' => k' c' (<[1 := consumed c c']> g')) c g).
      apply run_ident_None. destruct (after c') as [|y ?]; [done|].
      simpl in *. by apply space_not_identifier_start. }
  rewrite span_unique; [|done|by apply head_is_identifier_space]. cbn [fst snd].
  destruct ws as [|y ws]; [done|].
  rewrite run_named_fwd; [|done|done|done|done|]; change (run fl Eps ?k') with k';
    cbv beta; cbn [after].
  - replace (length a' =? _) with false; [rewrite andb_false_r|].
    + eexists. split; [done|]. unfold group; simpl.
      apply lookup_insert_Some. by left.
    + symmetry. apply Nat.eqb_neq. rewrite !length_app. simpl. lia.
  - replace (length a' =? _) with false; [by rewrite andb_false_r|].
    symmetry. apply Nat.eqb_neq. rewrite !length_app. simpl. lia.
Qed.


Lemma head_is_spaces_word ws a :
  ws <> [] -> Forall (fun y => is_space y = true) ws ->
  head_is is_word (ws ++ a) = false.
Proof using Hdb.
  intros Hne Hws. destruct Hws as [|y ws Hy _]; [done|]. simpl.
  destruct (is_word y) eqn:Hw; [|done]. apply Hdb in Hw. congruence.
Qed.

Lemma ends_with_word_Forall u :
  u <> [] -> Forall (fun y => is_word y = true) u -> ends_with_word u = true.
Proof.
  intros Hne Hu. unfold ends_with_word.
  destruct (list.last u) as [y|] eqn:Hlast; [|by apply last_None in Hlast].
  apply last_Some in Hlast as [u' ->]. by apply Forall_app in Hu as [_ [Hy _]%Forall_cons_1].
Qed.

Lemma function_word : Forall (fun y => is_word y = true) (py "function").
Proof. repeat constructor. Qed.

(** The text of one function declaration does not start inside that of
    another. *)
Lemma function_declarations_apart u ws name ws' rest ws0 n0 ws0' a0 :
  u <> [] -> ends_with_word u = false ->
  length u < length (py "function" ++ ws0 ++ n0 ++ ws0' ++ [ch "("]) ->
  u ++ py "function" ++ ws ++ name ++ ws' ++ ch "(" :: rest
  = py "function" ++ ws0 ++ n0 ++ ws0' ++ ch "(" :: a0 ->
  ws <> [] -> Forall (fun y => is_space y = true) ws -> identifier name ->
  Forall (fun y => is_space y = true) ws0 -> identifier n0 ->
  Forall (fun y => is_space y = true) ws0' ->
  False.
Proof using Hdb.
  intros Hu Hend Hlen Heq Hne Hws Hname Hws0 Hn0 Hws0'.
  assert (Hf : forall k a b (P : char -> bool),
            py "function" ++ a = k ++ b -> Forall (fun y => P y = true) k ->
            P (ch "f") = false -> k = []).
  { intros [|y k] a b P Hk HP Hfalse; [done|].
    injection Hk as Hy _. change (ch "f" = y) in Hy. subst y.
    apply Forall_cons_1 in HP as [HP _]. congruence. }
  assert (Hn0w : Forall (fun y => is_word y = true) n0).
  { destruct Hn0 as (x & s & -> & Hx & Hs).
    constructor; [by apply identifier_start_word|done]. }
  assert (Hgood : py "function" ++ ws ++ name ++ ws' ++ ch "(" :: rest
                  = n0 ++ ws0' ++ ch "(" :: a0 -> False).
  { intros Hg. pose proof (f_equal (span_while is_word) Hg) as Hw.
    rewrite span_unique in Hw;
      [|apply function_word|by apply head_is_spaces_word].
    rewrite span_unique in Hw; [|done|by apply head_is_space_word].
    injection Hw as _ Hw. apply (f_equal (span_while is_space)) in Hw.
    rewrite span_unique in Hw; [|done|by apply head_is_identifier_space].
    rewrite span_unique in Hw; [|done|done].
    injection Hw as _ Hw. destruct Hname as (x & s & -> & Hx & _).
    by injection Hw as -> _. }
  apply app_eq_inv in Heq as [(k & -> & Heq)|(k & Hk & Heq)].
  2:{ (* [u] ends within the keyword *)
      rewrite ends_with_word_Forall in Hend; [done|done|].
      pose proof function_word as Hw. rewrite Hk in Hw.
      by apply Forall_app in Hw as [Hw _]. }
  apply app_eq_inv in Heq as [(k2 & -> & Heq)|(k2 & -> & Heq)].
  - (* [u] ends within the first whitespace *)
    apply Forall_app in Hws0 as [_ Hk2].
    pose proof (Hf _ _ _ is_space Heq Hk2 eq_refl) as ->. by apply Hgood.
  - apply app_eq_inv in Heq as [(k3 & -> & Heq)|(k3 & -> & Heq)].
    + (* [u] ends within the identifier *)
      destruct k2 as [|y k2]; [by apply Hgood|].
      apply Forall_app in Hn0w as [Hk2 _].
      rewrite !app_assoc, ends_with_word_app in Hend by done.
      by rewrite ends_with_word_Forall in Hend.
    + (* [u] ends within the second whitespace or after it *)
      apply app_eq_inv in Heq as [(k4 & -> & Heq)|(k4 & -> & Heq)].
      * apply Forall_app in Hws0' as [_ Hk4].
        pose proof (Hf _ _ _ is_space Heq Hk4 eq_refl) as ->. done.
      * destruct k4 as [|y k4]; [done|].
        rewrite !length_app in Hlen. simpl in Hlen. lia.
Qed.

End FunctionDeclarations.

(** X11. Where no Unicode word character is a blank, every function
    declaration of the text ([function], whitespace, an identifier,
    optional whitespace, an opening parenthesis) whose keyword has no word
    character before it puts its identifier in the functions. *)
Theorem function_declarations_are_found (text l r name : str) :
  (forall x, is_word x = true -> is_space x = false) ->
  text = l ++ r -> ends_with_word l = false -> declares_function r name ->
  name ∈ (extract_symbols text).2.
Proof.
  intros Hdb -> Hend (ws & ws' & rest & Hne & Hws & Hname & Hws' & ->).
  set (r := py "function" ++ ws ++ name ++ ws' ++ ch "(" :: rest).
  assert (Hb : at_boundary (Cursor (reverse l) r) = true).
  { apply at_boundary_word_boundary. unfold word_boundary. by rewrite Hend. }
  assert (Hc : cursor_at (l ++ r) (length l) = Cursor (reverse l) r).
  { unfold cursor_at. by rewrite take_app_length, drop_app_length. }
  assert (Hlen : length l <= length (l ++ r)) by (rewrite length_app; lia).
  destruct (function_match_at Hdb no_flags false (reverse l) ws name ws' rest)
    as (mq & Hmq & _); [done..|].
  destruct (finditer_covers no_flags function_regex (l ++ r) (length l) mq)
    as (m & Hm & Hcov); [done|by rewrite Hc|].
  apply elem_of_functions.
  exists (py "\bfunction\s+([A-Za-z_]\w*)\s*\("), m.
  split; [left|]. split; [done|].
  apply finditer_sound in Hm as (j & must & Hj & Hmj).
  destruct (match_at_cursor_at _ _ _ _ _ _ Hj Hmj) as (Hstart & e & He & Hend' & _).
  destruct Hcov as [Hsame|Hinside].
  - assert (j = length l) as ->.
    { rewrite Hstart in Hsame. apply (f_equal pos) in Hsame.
      by rewrite !pos_cursor_at in Hsame. }
    rewrite Hc in Hmj.
    destruct (function_match_at Hdb no_flags must (reverse l) ws name ws' rest)
      as (m' & Hm' & Hg'); [done..|].
    unfold r in Hmj. rewrite Hm' in Hmj. by injection Hmj as <-.
  - exfalso. rewrite Hstart, pos_cursor_at in Hinside by done.
    unfold cursor_at in Hmj. apply match_at_function in Hmj
      as (_ & ws0 & n0 & ws0' & a0 & Ha & _ & Hws0 & Hn0 & Hws0' & _ & Hme).
    assert (Hpos : pos (m_end m)
                   = j + length (py "function" ++ ws0 ++ n0 ++ ws0' ++ [ch "("])).
    { rewrite Hme. unfold pos. cbn [before length].
      rewrite !length_app, !length_reverse, length_take.
      change (length [ch "("]) with 1. lia. }
    rewrite drop_app_le in Ha by lia.
    apply (function_declarations_apart Hdb (drop j l) ws name ws' rest ws0 n0 ws0' a0);
      try done.
    + intros Hnil%(f_equal length). rewrite length_drop in Hnil. simpl in Hnil. lia.
    + rewrite <- (take_drop j l), ends_with_word_app in Hend; [done|].
      intros Hnil%(f_equal length). rewrite length_drop in Hnil. simpl in Hnil. lia.
    + rewrite length_drop. lia.
Qed.

(** ** The order of the markdown files *)

Lemma Exists_texts (P : str -> Prop) docs texts :
  Forall2 (fun data text => read_data Utf8.Strict data = Ok text) docs texts ->
  Exists P texts
  <-> exists data text,
        data ∈ docs /\ read_data Utf8.Strict data = Ok text /\ P text.
Proof.
  intros Hall. split.
  - intros Hex. induction Hall as [|data text docs texts Hdata Hall IH];
      [by apply Exists_nil in Hex|].
    apply Exists_cons in Hex as [Hhere|Hlater].
    + exists data, text. split; [left|done].
    + destruct (IH Hlater) as (data' & text' & Hin & Hread & Hdoc).
      exists data', text'. split; [by right|done].
  - intros (data & text & Hin & Hread & Hdoc).
    induction Hall as [|data' text' docs texts Hdata Hall IH];
      [by apply elem_of_nil in Hin|].
    apply Exists_cons. apply elem_of_cons in Hin as [->|Hin].
    + left. congruence.
    + right. by apply IH.
Qed.


Lemma identifier_no_line_feed name : identifier name -> 10%N ∉ name.
Proof.
  intros (x & s & -> & Hx & Hs) [Heq|Hin]%elem_of_cons.
  - by subst x.
  - by apply (proj1 (list.Forall_forall _ _) Hs) in Hin.
Qed.

Lemma symbols_identifiers text name :
  name ∈ elements (extract_symbols text).1
  \/ name ∈ elements (extract_symbols text).2 -> identifier name.
Proof.
  rewrite !elem_of_elements.
  intros [(m & Hm & Hg)%elem_of_globals
         |(pattern & m & Hp & Hm & Hg)%elem_of_functions].
  - eapply finditer_identifier; [|exact Hm|exact Hg]. left.
  - eapply finditer_identifier; [|exact Hm|exact Hg]. by right.
Qed.

Lemma qualified_no_line_feed rel name :
  10%N ∉ path_str rel -> identifier name -> 10%N ∉ qualified rel name.
Proof.
  intros Hrel Hname%identifier_no_line_feed. unfold qualified.
  rewrite !elem_of_app. intros [?|[Hc|?]]; [done| |done].
  by apply (bool_decide_pack _) in Hc.
Qed.

Lemma scan_files_no_line_feed code_root paths : forall ms gs fs ms' gs' fs',
  Forall (fun rel => 10%N ∉ path_str rel) paths ->
  scan_files code_root paths (ms, gs, fs) = Ok (ms', gs', fs') ->
  Forall (fun n => 10%N ∉ n) (ms ++ gs ++ fs) ->
  Forall (fun n => 10%N ∉ n) (ms' ++ gs' ++ fs').
Proof.
  induction paths as [|rel paths IH]; intros ms gs fs ms' gs' fs' Hpaths;
    cbn [scan_files].
  - by intros [= <- <- <-].
  - apply Forall_cons_1 in Hpaths as [Hrel Hpaths].
    destruct (read_text code_root rel Utf8.Ignore) as [text|]; [|done].
    cbn [bind]. pose proof (symbols_identifiers text) as Hid.
    destruct (extract_symbols text) as [globals_set functions_set].
    cbn [fst snd] in Hid. intros Hscan Hacc. apply IH in Hscan; [done|done|].
    apply Forall_app in Hacc as [Hms [Hgs Hfs]%Forall_app].
    repeat (apply Forall_app; split); try done.
    + by repeat constructor.
    + apply Forall_map, list.Forall_forall. intros name Hname.
      apply qualified_no_line_feed; [done|]. apply Hid. by left.
    + apply Forall_map, list.Forall_forall. intros name Hname.
      apply qualified_no_line_feed; [done|]. apply Hid. by right.
Qed.




Lemma load_docs_more docs docs' corpus corpus' (name : str) :
  (forall data, data ∈ docs -> data ∈ docs') ->
  load_docs (Some docs) = Ok corpus -> load_docs (Some docs') = Ok corpus' ->
  10%N ∉ name ->
  is_documented name corpus = true -> is_documented name corpus' = true.
Proof.
  intros Hsub. unfold load_docs.
  destruct (read_all docs) as [texts|] eqn:Hdocs; [|done].
  destruct (read_all docs') as [texts'|] eqn:Hdocs'; [|done].
  simpl. intros [= <-] [= <-] Hname.
  apply read_all_Ok in Hdocs, Hdocs'.
  rewrite !is_documented_whole_word_in, !whole_word_in_join by done.
  rewrite (Exists_texts _ _ _ Hdocs), (Exists_texts _ _ _ Hdocs').
  intros (data & text & Hin & Hrest). exists data, text.
  split; [by apply Hsub|done].
Qed.

Lemma compute_coverage_mono names corpus corpus' :
  Forall (fun n => is_documented n corpus = true ->
                   is_documented n corpus' = true) names ->
  (compute_coverage names corpus).1 <= (compute_coverage names corpus').1
  /\ (compute_coverage names corpus).2 = (compute_coverage names corpus').2.
Proof.
  intros Hmore. rewrite !compute_coverage_counts. split; [|done]. simpl.
  assert (Hdups : Forall (fun n => is_documented n corpus = true ->
                                   is_documented n corpus' = true)
                         (remove_dups names)).
  { apply list.Forall_forall. intros n Hn.
    apply (proj1 (elem_of_remove_dups _ _)) in Hn.
    exact (proj1 (list.Forall_forall _ _) Hmore n Hn). }
  induction Hdups as [|n l Hn Hl IH]; [done|].
  rewrite !filter_cons.
  destruct (decide (is_documented n corpus = true)) as [Hd|Hd].
  - rewrite decide_True by auto. simpl. lia.
  - destruct (decide _); simpl; lia.
Qed.

Lemma percentage_mono documented documented' total :
  documented <= documented' ->
  Qcanon.Qcle (percentage documented total) (percentage documented' total).
Proof.
  intros Hle. unfold percentage. case_bool_decide as Ht;
    [apply Qcanon.Qcle_refl|].
  assert (H100 : Qcanon.Qclt (Qc_of_Z 0) (Qc_of_Z 100))
    by (by apply (proj1 (Z2Qc_inj_lt 0 100))).
  assert (HT : Qcanon.Qclt (Qc_of_Z 0) (Qc_of_Z (Z.of_nat total)))
    by (apply (proj1 (Z2Qc_inj_lt 0 (Z.of_nat total))); lia).
  assert (HD : Qcanon.Qcle (Qc_of_Z (Z.of_nat documented))
                           (Qc_of_Z (Z.of_nat documented')))
    by (apply (proj1 (Z2Qc_inj_le _ _)); lia).
  generalize dependent (Qc_of_Z (Z.of_nat documented)).
  generalize dependent (Qc_of_Z (Z.of_nat documented')).
  generalize dependent (Qc_of_Z (Z.of_nat total)).
  generalize dependent (Qc_of_Z 100).
  rewrite Z2Qc_inj_0. intros C HC T HT D' D HD.
  unfold Qcanon.Qcdiv.
  apply Qcanon.Qcmult_le_compat_r; [|by apply Qcanon.Qclt_le_weak].
  apply Qcanon.Qcmult_le_compat_r; [done|].
  apply Qcanon.Qclt_le_weak. by apply Qcinv_pos.
Qed.

(** X13. More markdown never documents less: when every file of one
    documentation root is also in another, and no path of a source file
    holds a line feed, the report for the larger root has the same totals,
    documented counts at least as high, and a percentage at least as
    high. *)
Theorem more_markdown_documents_more
    (code_root : tree) (docs docs' : list (list byte)) (rep rep' : report) :
  (forall p, p ∈ collect_source_files code_root -> 10%N ∉ path_str p) ->
  (forall data, data ∈ docs -> data ∈ docs') ->
  main code_root (Some docs) = Ok rep ->
  main code_root (Some docs') = Ok rep' ->
  ((modules_tally rep).1 <= (modules_tally rep').1
   /\ (globals_tally rep).1 <= (globals_tally rep').1
   /\ (functions_tally rep).1 <= (functions_tally rep').1)
  /\ ((modules_tally rep).2 = (modules_tally rep').2
      /\ (globals_tally rep).2 = (globals_tally rep').2
      /\ (functions_tally rep).2 = (functions_tally rep').2)
  /\ Qcanon.Qcle (coverage_pct rep) (coverage_pct rep').
Proof.
  intros Hpaths Hsub. unfold main.
  destruct (load_docs (Some docs)) as [corpus|] eqn:Hdocs; [|done].
  destruct (load_docs (Some docs')) as [corpus'|] eqn:Hdocs'; [|done].
  simpl.
  destruct (scan_files _ _ _) as [[[ms gs] fs]|] eqn:Hscan; [|done]. simpl.
  apply scan_files_no_line_feed in Hscan; [|by apply list.Forall_forall|done].
  apply Forall_app in Hscan as [Hms [Hgs Hfs]%Forall_app].
  assert (Hcov : forall names, Forall (fun n => 10%N ∉ n) names ->
            (compute_coverage names corpus).1 <= (compute_coverage names corpus').1
            /\ (compute_coverage names corpus).2 = (compute_coverage names corpus').2).
  { intros names Hnames. apply compute_coverage_mono.
    eapply Forall_impl; [|exact Hnames]. simpl. intros n Hn.
    by apply (load_docs_more docs docs'). }
  destruct (Hcov ms Hms) as [Hm1 Hm2]. destruct (Hcov gs Hgs) as [Hg1 Hg2].
  destruct (Hcov fs Hfs) as [Hf1 Hf2].
  destruct (compute_coverage ms corpus) as [md mt].
  destruct (compute_coverage gs corpus) as [gd gt].
  destruct (compute_coverage fs corpus) as [fd ft].
  destruct (compute_coverage ms corpus') as [md' mt'].
  destruct (compute_coverage gs corpus') as [gd' gt'].
  destruct (compute_coverage fs corpus') as [fd' ft'].
  simpl in *. subst mt' gt' ft'. intros [= <-] [= <-]. simpl.
  do 2 (split; [done|]). apply percentage_mono. lia.
Qed.

(** ** Arrow functions *)

Lemma run_star_chr fl r p x rest k b a g res :
  (forall k c g, run fl r k c g = eat p k c g) ->
  run fl (Seq (Star r) (Seq (Chr x) rest)) k (Cursor b a) g = Some res ->
  exists w a', a = w ++ x :: a'
    /\ Forall (fun y => p y = true) w
    /\ run fl rest k (Cursor (x :: reverse w ++ b) a') g = Some res.
Proof.
  intros Hr. rewrite run_Seq.
  change (run fl (Star r) ?k' ?c' g)
    with (repeat (run fl r) (length (after c')) k' c' g).
  intros (w & a1 & -> & Hw & Hk)%(repeat_eat_consumes _ p); [|done].
  rewrite run_Seq in Hk.
  change (run fl (Chr x) ?k' ?c' g) with (eat (fun y => (y =? x)%N) k' c' g) in Hk.
  unfold eat in Hk. cbn [after before] in Hk.
  destruct a1 as [|y a1]; [done|].
  destruct (N.eqb_spec y x) as [->|]; [|done].
  by exists w, a1.
Qed.

Lemma run_star_chr_fwd fl r p x rest k b w a' g :
  (forall k c g, run fl r k c g = eat p k c g) ->
  Forall (fun y => p y = true) w -> p x = false ->
  is_Some (run fl rest k (Cursor (x :: reverse w ++ b) a') g) ->
  run fl (Seq (Star r) (Seq (Chr x) rest)) k (Cursor b (w ++ x :: a')) g
  = run fl rest k (Cursor (x :: reverse w ++ b) a') g.
Proof.
  intros Hr Hw Hx Hk. rewrite run_Seq.
  change (run fl (Star r) ?k' ?c' g)
    with (repeat (run fl r) (length (after c')) k' c' g).
  assert (Hspan : span_while p (w ++ x :: a') = (w, x :: a'))
    by (apply span_unique; [done|by simpl]).
  assert (Hstep : run fl (Seq (Chr x) rest) k (Cursor (reverse w ++ b) (x :: a')) g
                  = run fl rest k (Cursor (x :: reverse w ++ b) a') g).
  { rewrite run_Seq.
    change (run fl (Chr x) ?k' ?c' g) with (eat (fun y => (y =? x)%N) k' c' g).
    unfold eat. cbn [after before]. by rewrite N.eqb_refl. }
  rewrite (repeat_eat_span _ p); rewrite ?Hspan; cbn [fst snd].
  - done.
  - done.
  - cbn [after]. rewrite length_app. lia.
  - left. by rewrite Hstep.
Qed.

Lemma not_paren_spec (w : str) :
  Forall (fun y => in_set true [IChar (ch ")")] y = true) w <-> ch ")" ∉ w.
Proof.
  rewrite list.Forall_forall. unfold in_set. cbn [existsb in_item]. split.
  - intros Hw Hin. specialize (Hw _ Hin). by rewrite N.eqb_refl in Hw.
  - intros Hw y Hy. destruct (N.eqb_spec y (ch ")")) as [->|]; done.
Qed.

Lemma compile_arrow :
  compile (py "\b([A-Za-z_]\w*)\s*=\s*\([^)]*\)\s*=>") = Some arrow_regex.
Proof. reflexivity. Qed.

Lemma match_at_arrow fl must b a m :
  match_at fl arrow_regex must (Cursor b a) = Some m ->
  at_boundary (Cursor b a) = true
  /\ exists name width,
       declares_arrow a name width /\ group 1 m = Some name
       /\ length (after (m_end m)) + width = length a.
Proof.
  unfold match_at, arrow_regex. rewrite run_Seq.
  change (run fl Boundary ?k ?c ?g) with (if at_boundary c then k c g else None).
  destruct (at_boundary (Cursor b a)); [|done].
  destruct (run fl (named _ _) _ _ ∅) as [[c' g']|] eqn:Hrun; [|done].
  intros [= <-]. split; [done|].
  apply run_named in Hrun as (n & ws1 & a1 & -> & Hn & Hws1 & Hk).
  unfold arrow_tail in Hk.
  apply (run_star_chr _ _ is_space) in Hk as (ws2 & a2 & -> & Hws2 & Hk);
    [|done].
  apply (run_star_chr _ _ (in_set true [IChar (ch ")")])) in Hk
    as (params & a3 & -> & Hparams%not_paren_spec & Hk); [|done].
  apply (run_star_chr _ _ is_space) in Hk as (ws3 & a4 & -> & Hws3 & Hk);
    [|done].
  rewrite run_Seq in Hk.
  change (run fl (Chr ?x) ?k' ?c' ?g)
    with (eat (fun y => (y =? x)%N) k' c' g) in Hk.
  unfold eat in Hk. cbn [after before] in Hk.
  destruct a4 as [|y rest]; [done|].
  destruct (N.eqb_spec y (ch ">")) as [->|]; [|done].
  change (run fl Eps ?k') with k' in Hk. cbv beta in Hk.
  destruct (must && _); [done|]. injection Hk as <- <-.
  eexists n, _. split; [|split].
  - exists ws1, ws2, params, ws3, rest. by repeat split.
  - unfold group; simpl. apply lookup_insert_Some. by left.
  - cbn [m_end after]. rewrite !length_app. cbn [length].
    rewrite !length_app. cbn [length]. rewrite !length_app. cbn [length].
    rewrite !length_app. cbn [length]. lia.
Qed.

Section ArrowFunctions.
Hypothesis Hdb : forall x, is_word x = true -> is_space x = false.

Lemma arrow_match_at fl must b name width a :
  at_boundary (Cursor b a) = true -> declares_arrow a name width ->
  exists m,
    match_at fl arrow_regex must (Cursor b a) = Some m
    /\ group 1 m = Some name.
Proof using Hdb.
  intros Hb (ws1 & ws2 & params & ws3 & rest & Hn & Hws1 & Hws2 & Hparams
             & Hws3 & -> & _).
  unfold match_at, arrow_regex. rewrite run_Seq.
  change (run fl Boundary ?k ?c ?g) with (if at_boundary c then k c g else None).
  rewrite Hb.
  match goal with
  | |- context [run fl (named _ _) ?k _ _] => set (kfinal := k)
  end.
  assert (Hfinal : forall b', kfinal (Cursor b' rest) (<[1:=name]> ∅)
                              = Some (Cursor b' rest, <[1:=name]> ∅)).
  { intros b'. unfold kfinal. cbn [after].
    replace (length rest =? _) with false; [by rewrite andb_false_r|].
    symmetry. apply Nat.eqb_neq. rewrite !length_app. cbn [length].
    rewrite !length_app. cbn [length]. rewrite !length_app. cbn [length].
    rewrite !length_app. cbn [length]. lia. }
  assert (H5 : forall b', run fl (Seq (Chr (ch ">")) Eps) kfinal
                 (Cursor b' (ch ">" :: rest)) (<[1:=name]> ∅)
               = Some (Cursor (ch ">" :: b') rest, <[1:=name]> ∅)).
  { intros b'. rewrite run_Seq.
    change (run fl (Chr ?x) ?k' ?c' ?g)
      with (eat (fun y => (y =? x)%N) k' c' g).
    unfold eat. cbn [after before]. rewrite N.eqb_refl.
    change (run fl Eps ?k') with k'. apply Hfinal. }
  rewrite run_named_fwd; [|done..| ]; unfold arrow_tail;
    (rewrite (run_star_chr_fwd _ _ is_space); [|done..| ]);
    (rewrite (run_star_chr_fwd _ _ (in_set true [IChar (ch ")")]));
       [|done|by apply not_paren_spec|done| ]);
    (rewrite (run_star_chr_fwd _ _ is_space); [|done..| ]);
    rewrite ?H5; try done.
  eexists. split; [done|]. unfold group; simpl.
  apply lookup_insert_Some. by left.
Qed.

End ArrowFunctions.

(** X14. Where no Unicode word character is a blank, an arrow function
    bound to a name ([name = (parameters) =>], the parameters holding no
    closing parenthesis, the name with no word character before it) puts
    the name in the functions, unless the name starts inside the text
    matched for an earlier such arrow function, whose name is then in the
    functions. *)
Theorem arrow_functions_are_found (text l r name : str) (width : nat) :
  (forall x, is_word x = true -> is_space x = false) ->
  text = l ++ r -> ends_with_word l = false -> declares_arrow r name width ->
  name ∈ (extract_symbols text).2
  \/ exists l0 r0 name0 width0,
       text = l0 ++ r0 /\ ends_with_word l0 = false
       /\ declares_arrow r0 name0 width0
       /\ name0 ∈ (extract_symbols text).2
       /\ length l0 < length l < length l0 + width0.
Proof.
  intros Hdb -> Hend Hdecl.
  assert (Hin : forall m, m ∈ finditer no_flags arrow_regex (l ++ r) ->
            forall n, group 1 m = Some n -> n ∈ (extract_symbols (l ++ r)).2).
  { intros m Hm n Hg. apply elem_of_functions.
    exists (py "\b([A-Za-z_]\w*)\s*=\s*\([^)]*\)\s*=>"), m.
    split; [do 3 right; left|]. unfold re_finditer. by rewrite compile_arrow. }
  assert (Hword : forall l' r' n w,
            declares_arrow r' n w -> at_boundary (Cursor (reverse l') r') = true
            <-> ends_with_word l' = false).
  { intros l' r' n w (? & ? & ? & ? & ? & Hn & _ & _ & _ & _ & -> & _).
    rewrite at_boundary_word_boundary. unfold word_boundary.
    rewrite identifier_starts_with_word by done.
    by destruct (ends_with_word l'). }
  assert (Hb : at_boundary (Cursor (reverse l) r) = true)
    by (by eapply Hword).
  assert (Hc : cursor_at (l ++ r) (length l) = Cursor (reverse l) r).
  { unfold cursor_at. by rewrite take_app_length, drop_app_length. }
  assert (Hlen : length l <= length (l ++ r)) by (rewrite length_app; lia).
  destruct (arrow_match_at Hdb no_flags false (reverse l) name width r)
    as (mq & Hmq & _); [done..|].
  destruct (finditer_covers no_flags arrow_regex (l ++ r) (length l) mq)
    as (m & Hm & Hcov); [done|by rewrite Hc|].
  pose proof Hm as Hm'.
  apply finditer_sound in Hm' as (j & must & Hj & Hmj).
  destruct (match_at_cursor_at _ _ _ _ _ _ Hj Hmj)
    as (Hstart & e & He & Hend' & _).
  destruct Hcov as [Hsame|Hinside].
  - left. assert (j = length l) as ->.
    { rewrite Hstart in Hsame. apply (f_equal pos) in Hsame.
      by rewrite !pos_cursor_at in Hsame. }
    rewrite Hc in Hmj.
    destruct (arrow_match_at Hdb no_flags must (reverse l) name width r)
      as (m' & Hm'' & Hg'); [done..|].
    apply (Hin m); [done|]. congruence.
  - right. rewrite Hstart, pos_cursor_at in Hinside by done.
    unfold cursor_at in Hmj. apply match_at_arrow in Hmj
      as (Hb0 & name0 & width0 & Hdecl0 & Hg0 & Hlen0).
    exists (take j (l ++ r)), (drop j (l ++ r)), name0, width0.
    split; [by rewrite take_drop|]. split; [by eapply Hword|].
    split; [done|]. split; [by apply (Hin m)|].
    rewrite Hend', after_cursor_at_length, length_drop in Hlen0.
    rewrite Hend', pos_cursor_at in Hinside by lia.
    rewrite length_take. lia.
Qed.

End FurtherClaims.

(** * Closed instances

    The inputs below are ASCII, so the Unicode database plays no part; they
    are evaluated with [ascii_db]. *)

#[local] Existing Instance ascii_db.

(** The source file of [example_root] is yielded; its suffix is [.js]. *)
Lemma collect_source_files_case_sensitive_witness :
  [py "src"; py "app.js"] ∈ collect_source_files example_root
  /\ (path_suffix [py "src"; py "app.js"]
        ∈ [py ".js"; py ".jsx"; py ".ts"; py ".tsx"]
      /\ (forall e, e ∈ extensions ->
            lower (path_suffix [py "src"; py "app.js"]) = e ->
            path_suffix [py "src"; py "app.js"] = e)
      /\ path_name [py "src"; py "app.js"] <> py "APP.JS"
      /\ path_name [py "src"; py "app.js"] <> py "main.Ts").
Proof.
  assert (Hin : [py "src"; py "app.js"] ∈ collect_source_files example_root)
    by (vm_compute; left).
  split; [exact Hin|].
  exact (collect_source_files_case_sensitive example_root _ Hin).
Defined.

(** The report for a code root with no source file. *)
Lemma empty_scan_reports_full_coverage_witness :
  collect_source_files example_root_no_sources = []
  /\ load_docs (Some [[x61; x70; x70]%byte]) = Ok (py "app")
  /\ main example_root_no_sources (Some [[x61; x70; x70]%byte])
     = Ok (Report (0, 0) (0, 0) (0, 0) (Qc_of_Z 100)).
Proof.
  split; [reflexivity|]. split; [reflexivity|].
  exact (empty_scan_reports_full_coverage example_root_no_sources
           (Some [[x61; x70; x70]%byte]) (py "app") eq_refl eq_refl).
Defined.

(** The source file of [example_root], whose second byte starts no
    sequence, is read as the text of its other two bytes. *)
Lemma source_decode_faults_are_dropped_witness :
  read_bytes example_root [py "src"; py "app.js"] = Some [x61; xff; x62]%byte
  /\ ((exists kept decoded,
         without_offending [x61; xff; x62]%byte kept
         /\ (forall kept',
               without_offending [x61; xff; x62]%byte kept' -> kept' = kept)
         /\ (kept `sublist_of` [x61; xff; x62]%byte)
         /\ Utf8.decode Utf8.Strict kept = Ok decoded
         /\ (forall decoded',
               Utf8.decode Utf8.Strict [x61; xff; x62]%byte = Ok decoded' ->
               kept = [x61; xff; x62]%byte /\ decoded' = decoded)
         /\ read_text example_root [py "src"; py "app.js"] Utf8.Ignore
            = Ok (universal_newlines decoded)
         /\ (forall paths ms gs fs,
               scan_files example_root ([py "src"; py "app.js"] :: paths)
                 (ms, gs, fs)
               = scan_files example_root paths
                   (ms ++ [path_str [py "src"; py "app.js"]],
                    gs ++ map (qualified [py "src"; py "app.js"])
                            (elements
                               (extract_symbols
                                  (universal_newlines decoded)).1),
                    fs ++ map (qualified [py "src"; py "app.js"])
                            (elements
                               (extract_symbols
                                  (universal_newlines decoded)).2))))
      /\ (forall paths acc,
            scan_files example_root paths acc <> Raise UnicodeDecodeError)
      /\ (forall doc_root doc_text,
            load_docs doc_root = Ok doc_text ->
            main example_root doc_root <> Raise UnicodeDecodeError)).
Proof.
  split; [reflexivity|].
  exact (source_decode_faults_are_dropped example_root [py "src"; py "app.js"]
           [x61; xff; x62]%byte eq_refl).
Defined.

(** C3: the globals of the scenario also hold [arrow], which is not one of
    the three names the claim lists. *)
Lemma extract_symbols_scenario_has_arrow :
  py "arrow"
    ∈ (extract_symbols (py "const topLevel = 1
let another = 2
var legacy
function declared() {}
const arrow = () => {}")).1
  /\ py "arrow" ∉ ({[ py "topLevel"; py "another"; py "legacy" ]} : gset str).
Proof. split; apply (bool_decide_unpack _); by vm_compute. Qed.

(** C4: [arrow] is in both sets for a one-line arrow function. *)
Lemma extract_symbols_not_disjoint :
  py "arrow" ∈ (extract_symbols (py "const arrow = () => {}")).1
  /\ py "arrow" ∈ (extract_symbols (py "const arrow = () => {}")).2.
Proof. split; apply (bool_decide_unpack _); by vm_compute. Qed.

(** C5: a markdown file that is not well-formed UTF-8 makes [load_docs],
    and with it [main], raise; and for a source file the offending byte is
    left out, no replacement character (U+FFFD) being put in. *)
Lemma decode_fault_surfaces_from_docs :
  load_docs (Some [[xff]%byte]) = Raise UnicodeDecodeError
  /\ main example_root (Some [[xff]%byte]) = Raise UnicodeDecodeError
  /\ read_text example_root [py "src"; py "app.js"] Utf8.Ignore
     = Ok (py "ab")
  /\ 65533%N ∉ py "ab".
Proof.
  split; [reflexivity|]. split; [reflexivity|]. split; [reflexivity|].
  apply (bool_decide_unpack _). by vm_compute.
Qed.


(** X2: a code root with a source file that cannot be opened. *)
Lemma main_reports_exactly_when_sources_open_witness :
  load_docs (Some example_docs) = Ok (py "lib.js holds a
and f")
  /\ (((exists rep, main example_root_no_access (Some example_docs) = Ok rep)
       <-> forall p, p ∈ collect_source_files example_root_no_access ->
                     is_Some (read_bytes example_root_no_access p))
      /\ (main example_root_no_access (Some example_docs) = Raise OSError
          <-> exists p, p ∈ collect_source_files example_root_no_access
                        /\ read_bytes example_root_no_access p = None)).
Proof.
  assert (Hdocs : load_docs (Some example_docs) = Ok (py "lib.js holds a
and f")) by (by vm_compute).
  split; [exact Hdocs|].
  exact (main_reports_exactly_when_sources_open example_root_no_access
           (Some example_docs) _ Hdocs).
Defined.

(** With the file that cannot be opened the run ends in the fault; without
    it, on the same bytes, in a report. *)
Lemma source_without_access_stops_main :
  [py "link.js"] ∈ collect_source_files example_root_no_access
  /\ read_bytes example_root_no_access [py "link.js"] = None
  /\ main example_root_no_access (Some example_docs) = Raise OSError
  /\ main example_root_symbols (Some example_docs)
     = Ok (Report (1, 1) (0, 1) (0, 1) (percentage 1 3)).
Proof.
  split; [apply (bool_decide_unpack _); by vm_compute|].
  split; [by vm_compute|]. split; by vm_compute.
Qed.

(** The bytes [a], [0xff], [b] without the offending one. *)
Lemma without_offending_example :
  without_offending [x61; xff; x62]%byte [x61; x62]%byte
  /\ Utf8.decode Utf8.Ignore [x61; xff; x62]%byte = Ok (py "ab").
Proof.
  split; [|reflexivity].
  apply (wo_keep [x61]%byte [xff; x62]%byte [x62]%byte (ch "a"));
    [reflexivity|].
  apply wo_drop; [reflexivity|].
  apply (wo_keep [x62]%byte [] [] (ch "b")); [reflexivity|]. constructor.
Qed.

(** X3: the report for [example_root_symbols] against a corpus that
    holds the name of the file and the qualified names of its global and
    its function. *)
Lemma report_is_consistent_witness :
  main example_root_symbols
    (Some [list_byte_of_string "lib.js lib.js:a lib.js:f"])
  = Ok (Report (1, 1) (1, 1) (1, 1) (percentage 3 3))
  /\ 1 <= 1 /\ 1 <= 1 /\ 1 <= 1
  /\ Qcanon.Qcle (Qc_of_Z 0) (percentage 3 3)
  /\ Qcanon.Qcle (percentage 3 3) (Qc_of_Z 100)
  /\ (1 = 1 /\ 1 = 1 /\ 1 = 1 -> percentage 3 3 = Qc_of_Z 100).
Proof.
  assert (Hmain : main example_root_symbols
                    (Some [list_byte_of_string "lib.js lib.js:a lib.js:f"])
                  = Ok (Report (1, 1) (1, 1) (1, 1) (percentage 3 3)))
    by (by vm_compute).
  split; [exact Hmain|].
  exact (report_is_consistent example_root_symbols _ _ Hmain).
Defined.

(** X4: the global of a one-line arrow function. *)
Lemma extract_symbols_identifiers_witness :
  (py "arrow" ∈ (extract_symbols (py "const arrow = () => {}")).1
   \/ py "arrow" ∈ (extract_symbols (py "const arrow = () => {}")).2)
  /\ identifier (py "arrow") /\ py "arrow" <> [].
Proof.
  assert (Hin : py "arrow" ∈ (extract_symbols (py "const arrow = () => {}")).1
                \/ py "arrow" ∈ (extract_symbols (py "const arrow = () => {}")).2)
    by (left; apply (bool_decide_unpack _); by vm_compute).
  split; [exact Hin|].
  exact (extract_symbols_identifiers _ _ Hin).
Defined.

(** X5: the two files of [example_docs] and the name [f] of the second. *)
Lemma corpus_documents_what_a_file_documents_witness :
  (10%N ∉ py "f")
  /\ load_docs (Some example_docs) = Ok (py "lib.js holds a
and f")
  /\ (is_documented (py "f") (py "lib.js holds a
and f") = true
      <-> exists data text,
            data ∈ example_docs /\ read_data Utf8.Strict data = Ok text
            /\ is_documented (py "f") text = true).
Proof.
  assert (Hname : 10%N ∉ py "f")
    by (apply (bool_decide_unpack _); by vm_compute).
  assert (Hdocs : load_docs (Some example_docs) = Ok (py "lib.js holds a
and f")) by (by vm_compute).
  split; [exact Hname|]. split; [exact Hdocs|].
  exact (corpus_documents_what_a_file_documents example_docs _ (py "f")
           Hname Hdocs).
Defined.

(** X7: [example_docs] mention [a] and [f], but hold no colon. *)
Lemma bare_names_document_no_symbol_witness :
  load_docs (Some example_docs) = Ok (py "lib.js holds a
and f")
  /\ main example_root_symbols (Some example_docs)
     = Ok (Report (1, 1) (0, 1) (0, 1) (percentage 1 3))
  /\ (ch ":" ∉ py "lib.js holds a
and f")
  /\ (0 = 0 /\ 0 = 0).
Proof.
  assert (Hdocs : load_docs (Some example_docs) = Ok (py "lib.js holds a
and f")) by (by vm_compute).
  assert (Hcolon : ch ":" ∉ py "lib.js holds a
and f") by (apply (bool_decide_unpack _); by vm_compute).
  assert (Hmain : main example_root_symbols (Some example_docs)
                  = Ok (Report (1, 1) (0, 1) (0, 1) (percentage 1 3)))
    by (by vm_compute).
  split; [exact Hdocs|]. split; [exact Hmain|]. split; [exact Hcolon|].
  exact (bare_names_document_no_symbol example_root_symbols
           (Some example_docs) _ _ Hdocs Hmain Hcolon).
Defined.

(** X8: the path of a dot file, found after the [x] it is glued to. *)
Lemma is_documented_needs_word_neighbour_witness :
  py ".a.js" <> []
  /\ is_documented (py ".a.js") (py "x.a.js") = true
  /\ ((starts_with_word (py ".a.js") = false ->
       exists l x r, py "x.a.js" = l ++ [x] ++ py ".a.js" ++ r
                     /\ is_word x = true)
      /\ (ends_with_word (py ".a.js") = false ->
          exists l x r, py "x.a.js" = l ++ py ".a.js" ++ [x] ++ r
                        /\ is_word x = true)).
Proof.
  assert (Hname : py ".a.js" <> []) by done.
  assert (Hdoc : is_documented (py ".a.js") (py "x.a.js") = true)
    by (by vm_compute).
  split; [exact Hname|]. split; [exact Hdoc|].
  exact (is_documented_needs_word_neighbour (py ".a.js") (py "x.a.js")
           Hname Hdoc).
Defined.

(** X10: the function of a one-line declaration. *)
Lemma functions_are_named_in_context_witness :
  py "declared" ∈ (extract_symbols (py "function declared() {}")).2
  /\ exists l ws x r,
       py "function declared() {}" = l ++ py "declared" ++ ws ++ x :: r
       /\ Forall (fun y => is_space y = true) ws
       /\ ((x = ch "("
            /\ exists l' ws1, l = l' ++ py "function" ++ ws1
                 /\ ws1 <> [] /\ Forall (fun y => is_space y = true) ws1
                 /\ ends_with_word l' = false)
           \/ (x ∈ [ch "="; ch ":"] /\ ends_with_word l = false)).
Proof.
  assert (Hin : py "declared"
                  ∈ (extract_symbols (py "function declared() {}")).2)
    by (apply (bool_decide_unpack _); by vm_compute).
  split; [exact Hin|].
  exact (functions_are_named_in_context _ _ Hin).
Defined.

(** In [ascii_db] no word character is a blank. *)
Lemma ascii_word_not_space x : is_word x = true -> is_space x = false.
Proof.
  unfold is_word, is_space, is_ascii_alnum, is_ascii_alpha, is_ascii_digit,
    is_ascii_space, in_range; simpl.
  repeat match goal with
         | |- context [(?a <=? ?b)%N] => destruct (N.leb_spec a b)
         | |- context [(?a =? ?b)%N] => destruct (N.eqb_spec a b)
         | |- context [(?a <? ?b)%N] => destruct (N.ltb_spec a b)
         end; simpl; try done; lia.
Qed.

(** X11: an exported function declaration with a blank before the
    parenthesis. *)
Lemma function_declarations_are_found_witness :
  (forall x, is_word x = true -> is_space x = false)
  /\ py "export function f (x) {}" = py "export " ++ py "function f (x) {}"
  /\ ends_with_word (py "export ") = false
  /\ ReMore.declares_function (py "function f (x) {}") (py "f")
  /\ py "f" ∈ (extract_symbols (py "export function f (x) {}")).2.
Proof.
  assert (Hdecl : ReMore.declares_function (py "function f (x) {}") (py "f")).
  { exists (py " "), (py " "), (py "x) {}"). split; [done|].
    split; [by repeat constructor|]. split.
    - exists (ch "f"), []. split; [done|]. split; [done|]. constructor.
    - split; [by repeat constructor|done]. }
  split; [exact ascii_word_not_space|]. split; [reflexivity|].
  split; [reflexivity|]. split; [exact Hdecl|].
  exact (function_declarations_are_found (py "export function f (x) {}")
           (py "export ") (py "function f (x) {}") (py "f")
           ascii_word_not_space eq_refl eq_refl Hdecl).
Defined.


(** X13: a third file that holds the qualified name of the global. *)
Lemma more_markdown_documents_more_witness :
  (forall p, p ∈ collect_source_files example_root_symbols ->
             10%N ∉ path_str p)
  /\ (forall data, data ∈ example_docs ->
                   data ∈ example_docs ++ [list_byte_of_string "lib.js:a"])
  /\ main example_root_symbols (Some example_docs)
     = Ok (Report (1, 1) (0, 1) (0, 1) (percentage 1 3))
  /\ main example_root_symbols
          (Some (example_docs ++ [list_byte_of_string "lib.js:a"]))
     = Ok (Report (1, 1) (1, 1) (0, 1) (percentage 2 3))
  /\ (1 <= 1 /\ 0 <= 1 /\ 0 <= 0)
  /\ (1 = 1 /\ 1 = 1 /\ 1 = 1)
  /\ Qcanon.Qcle (percentage 1 3) (percentage 2 3).
Proof.
  assert (Hpaths : forall p, p ∈ collect_source_files example_root_symbols ->
                             10%N ∉ path_str p).
  { intros p Hp.
    assert (Hfiles : collect_source_files example_root_symbols
                     = [[py "lib.js"]]) by (by vm_compute).
    rewrite Hfiles in Hp. apply list_elem_of_singleton in Hp as ->.
    apply (bool_decide_unpack _). by vm_compute. }
  assert (Hsub : forall data, data ∈ example_docs ->
                   data ∈ example_docs ++ [list_byte_of_string "lib.js:a"])
    by (intros data Hin; apply elem_of_app; by left).
  assert (Hmain : main example_root_symbols (Some example_docs)
                  = Ok (Report (1, 1) (0, 1) (0, 1) (percentage 1 3)))
    by (by vm_compute).
  assert (Hmain' : main example_root_symbols
                     (Some (example_docs ++ [list_byte_of_string "lib.js:a"]))
                   = Ok (Report (1, 1) (1, 1) (0, 1) (percentage 2 3)))
    by (by vm_compute).
  split; [exact Hpaths|]. split; [exact Hsub|]. split; [exact Hmain|].
  split; [exact Hmain'|].
  exact (more_markdown_documents_more example_root_symbols example_docs
           (example_docs ++ [list_byte_of_string "lib.js:a"]) _ _
           Hpaths Hsub Hmain Hmain').
Defined.

(** X14: a one-line arrow function after [const]. *)
Lemma arrow_functions_are_found_witness :
  (forall x, is_word x = true -> is_space x = false)
  /\ py "const arrow = () => {}" = py "const " ++ py "arrow = () => {}"
  /\ ends_with_word (py "const ") = false
  /\ ReMore.declares_arrow (py "arrow = () => {}") (py "arrow") 13
  /\ (py "arrow" ∈ (extract_symbols (py "const arrow = () => {}")).2
      \/ exists l0 r0 name0 width0,
           py "const arrow = () => {}" = l0 ++ r0
           /\ ends_with_word l0 = false
           /\ ReMore.declares_arrow r0 name0 width0
           /\ name0 ∈ (extract_symbols (py "const arrow = () => {}")).2
           /\ length l0 < length (py "const ") < length l0 + width0).
Proof.
  assert (Hdecl : ReMore.declares_arrow (py "arrow = () => {}") (py "arrow") 13).
  { exists (py " "), (py " "), [], (py " "), (py " {}"). split.
    - exists (ch "a"), (py "rrow"). split; [done|]. split; [done|].
      by repeat constructor.
    - split; [by repeat constructor|]. split; [by repeat constructor|].
      split; [by intros ?%elem_of_nil|]. split; [by repeat constructor|done]. }
  split; [exact ascii_word_not_space|]. split; [reflexivity|].
  split; [reflexivity|]. split; [exact Hdecl|].
  exact (arrow_functions_are_found (py "const arrow = () => {}")
           (py "const ") (py "arrow = () => {}") (py "arrow") 13
           ascii_word_not_space eq_refl eq_refl Hdecl).
Defined.
